(** * A selector-driven asynchronous TCP echo server

    Shallow embedding of [main.py]: the listening-socket context manager
    [server_socket], the accept path [accept_client], the per-connection
    read/echo/close cycle [process_client_io] and the dispatch loop of
    [main], over an explicit model of the Python runtime pieces the code
    calls into ([bytes.decode], [str.encode], [selectors.DefaultSelector],
    the socket calls made through the asyncio loop, and the logging sink). *)

From Stdlib Require Import NArith ZArith Lia List Bool.
From Stdlib Require Import Strings.Byte Strings.Ascii Strings.String.
From Stdlib Require Import DecimalString QArith_base.
From stdpp Require Import base option list gmap strings.

Local Open Scope N_scope.

(** ** Python values: [bytes] and [str] *)

(** A Python [bytes] object is a sequence of octets; a Python [str] is a
    sequence of Unicode code points. *)
Abbreviation bytes := (list byte).
Abbreviation str := (list N).

Module Codec.

(** The octet holding [n]; only ever used below 256. *)
Definition byte_of (n : N) : byte :=
  match Byte.of_N n with
  | Some b => b
  | None => x00
  end.

(** [lo <= b <= hi] on the numeric value of an octet. *)
Definition between (lo hi : N) (b : byte) : bool :=
  (lo <=? Byte.to_N b) && (Byte.to_N b <=? hi).

(** Payload bits of a continuation octet. *)
Definition tail_bits (b : byte) : N := Byte.to_N b - 128.

(** [bytes.decode()] with its defaults (encoding utf-8, errors strict):
    [None] stands for [UnicodeDecodeError].  The accepted sequences are
    the well-formed ones: no overlong forms, no surrogates, nothing above
    U+10FFFF, no truncated or stray continuation octets. *)
Fixpoint decode (bs : bytes) : option str :=
  match bs with
  | [] => Some []
  | b0 :: r0 =>
    let n0 := Byte.to_N b0 in
    if n0 <? 128 then cons n0 <$> decode r0
    else if n0 <? 194 then None
    else if n0 <? 224 then
      match r0 with
      | b1 :: r1 =>
        if between 128 191 b1
        then cons ((n0 - 192) * 64 + tail_bits b1) <$> decode r1
        else None
      | _ => None
      end
    else if n0 <? 240 then
      match r0 with
      | b1 :: b2 :: r2 =>
        if between (if n0 =? 224 then 160 else 128)
                   (if n0 =? 237 then 159 else 191) b1
           && between 128 191 b2
        then cons ((n0 - 224) * 4096 + tail_bits b1 * 64 + tail_bits b2)
               <$> decode r2
        else None
      | _ => None
      end
    else if n0 <? 245 then
      match r0 with
      | b1 :: b2 :: b3 :: r3 =>
        if between (if n0 =? 240 then 144 else 128)
                   (if n0 =? 244 then 143 else 191) b1
           && between 128 191 b2 && between 128 191 b3
        then cons ((n0 - 240) * 262144 + tail_bits b1 * 4096
                   + tail_bits b2 * 64 + tail_bits b3)
               <$> decode r3
        else None
      | _ => None
      end
    else None
  end.

(** UTF-8 form of one code point; [None] for a surrogate (and for a
    number that is no code point), where [str.encode()] raises
    [UnicodeEncodeError]. *)
Definition encode_point (c : N) : option bytes :=
  if c <? 128 then Some [byte_of c]
  else if c <? 2048 then
    Some [byte_of (192 + c / 64); byte_of (128 + c mod 64)]
  else if c <? 65536 then
    if (55296 <=? c) && (c <=? 57343) then None
    else Some [byte_of (224 + c / 4096); byte_of (128 + (c / 64) mod 64);
               byte_of (128 + c mod 64)]
  else if c <? 1114112 then
    Some [byte_of (240 + c / 262144); byte_of (128 + (c / 4096) mod 64);
          byte_of (128 + (c / 64) mod 64); byte_of (128 + c mod 64)]
  else None.

(** [str.encode()] with its defaults (utf-8, strict). *)
Fixpoint encode (s : str) : option bytes :=
  match s with
  | [] => Some []
  | c :: r =>
    match encode_point c, encode r with
    | Some bs, Some rest => Some (bs ++ rest)
    | _, _ => None
    end
  end.

(** A [str] literal of the source, written as a Rocq string. *)
Fixpoint lit (s : string) : str :=
  match s with
  | EmptyString => []
  | String a r => N_of_ascii a :: lit r
  end.

End Codec.

(** ** Exceptions *)

Inductive key_error := AlreadyRegistered | NotRegistered.

(** The Python exceptions that the modelled calls can raise. *)
Inductive exn :=
| KeyError (why : key_error)
| ValueError
| OSError (errno : Z)
| UnicodeDecodeError
| UnicodeEncodeError
| KeyboardInterrupt.

Inductive result (A : Type) :=
| Ok (a : A)
| Raise (e : exn).
Arguments Ok {A} a.
Arguments Raise {A} e.

Definition EBADF : Z := 9.
Definition ECONNRESET : Z := 104.
Definition ENOTCONN : Z := 107.

(** ** Sockets, addresses, selector keys *)

(** A socket object, by identity: the n-th socket object the process made. *)
Abbreviation sock := nat.

(** An [AF_INET] address as [getpeername()] returns it: the four octets of
    the host (Python shows them as a dotted-quad [str]) and the port. *)
Record addr := { host : N * N * N * N; port : N }.

Definition dec (n : N) : str := Codec.lit (NilZero.string_of_uint (N.to_uint n)).

Definition dotted (h : N * N * N * N) : str :=
  let '(a, b, c, d) := h in
  dec a ++ Codec.lit "." ++ dec b ++ Codec.lit "." ++ dec c
    ++ Codec.lit "." ++ dec d.

(** How an f-string renders the tuple [(host, port)]. *)
Definition show_addr (a : addr) : str :=
  Codec.lit "('" ++ dotted (host a) ++ Codec.lit "', " ++ dec (port a)
    ++ Codec.lit ")".

Definition EVENT_READ : Z := 1.

(** [selectors.SelectorKey]. *)
Record SelectorKey := {
  fileobj : sock;
  fd : Z;
  events : Z;
  data : string;
}.

(** ** The trace of what the process did *)

Inductive level := INFO | ERROR.

Inductive action :=
| Log (l : level) (msg : str)
| Socket (s : sock) (n : Z)
| SetSockOpt (s : sock)
| Bind (s : sock) (a : addr) (r : result unit)
| SetBlocking (s : sock)
| Listen (s : sock)
| Register (s : sock) (n : Z) (tag : string)
| Unregister (s : sock) (n : Z)
| Select (timeout : option Q) (ready : list SelectorKey)
| Accept (l : sock) (r : result (sock * Z * addr))
| Recv (s : sock) (max : N) (r : result bytes)
| GetPeerName (s : sock) (r : result addr)
| SendAll (s : sock) (payload : bytes) (r : result unit)
| Close (s : sock) (n : Z).

(** ** The state of the process *)

Record world := {
  fd_to_key : gmap Z SelectorKey;  (* the table of the module-level selector *)
  fileno : gmap sock Z;            (* open socket objects and their descriptors *)
  created : nat;                   (* socket objects made so far *)
  trace : list action;             (* oldest first *)
}.

Definition start : world :=
  {| fd_to_key := ∅; fileno := ∅; created := 0%nat; trace := [] |}.

Definition set_fd_to_key (t : gmap Z SelectorKey) (w : world) : world :=
  {| fd_to_key := t; fileno := fileno w; created := created w;
     trace := trace w |}.

Definition set_fileno (f : gmap sock Z) (w : world) : world :=
  {| fd_to_key := fd_to_key w; fileno := f; created := created w;
     trace := trace w |}.

Definition new_sock (n : Z) (w : world) : world :=
  {| fd_to_key := fd_to_key w; fileno := <[created w := n]> (fileno w);
     created := S (created w); trace := trace w |}.

Definition record (a : action) (w : world) : world :=
  {| fd_to_key := fd_to_key w; fileno := fileno w; created := created w;
     trace := trace w ++ [a] |}.

(** What the operating system and the peers answer.  Every answer may
    depend on everything that happened so far. *)
Record os_model := {
  os_socket : world -> result Z;
  os_bind : world -> sock -> result unit;
  os_accept : world -> sock -> result (Z * addr);
  os_recv : world -> sock -> result bytes;
  os_getpeername : world -> sock -> result addr;
  os_sendall : world -> sock -> bytes -> result unit;
  os_epoll : world -> result (list Z);
}.

(** ** Computations that read and change the state, and may raise *)

Definition M (A : Type) : Type := world -> result A * world.

Definition ret {A} (a : A) : M A := fun w => (Ok a, w).

Definition bind {A B} (m : M A) (k : A -> M B) : M B :=
  fun w =>
    match m w with
    | (Ok a, w') => k a w'
    | (Raise e, w') => (Raise e, w')
    end.

Definition raise {A} (e : exn) : M A := fun w => (Raise e, w).

Definition emit (a : action) : M unit := fun w => (Ok tt, record a w).

(** [try: body finally: cleanup], entered when [body] stopped. *)
Definition finally {A} (body : M A) (cleanup : M unit) : M A :=
  fun w =>
    match body w with
    | (r, w') =>
      match cleanup w' with
      | (Ok _, w'') => (r, w'')
      | (Raise e, w'') => (Raise e, w'')
      end
    end.

Declare Scope py_scope.
Delimit Scope py_scope with py.
Notation "'let*' x ':=' m 'in' k" := (bind m (fun x => k))
  (at level 10, x name, m at level 100, k at level 200) : py_scope.
Notation "'let*' ' p ':=' m 'in' k" :=
  (bind m (fun x => match x with p => k end))
  (at level 10, p pattern, m at level 100, k at level 200) : py_scope.
Notation "m '>>' k" := (bind m (fun _ => k))
  (at level 100, k at level 200, right associativity) : py_scope.
Local Open Scope py_scope.

(** ** The runtime the server calls into *)

Module logger.

(** Modelled from the spec: the module [logger] is not among the sources;
    the spec describes it as an opaque sink accepting leveled text
    messages.  [logger.info] appends the message to the trace and cannot
    fail. *)
Definition info (msg : str) : M unit := emit (Log INFO msg).

(** Modelled from the spec: [logger.error] of the same missing module; as
    [info], at the error level. *)
Definition error (msg : str) : M unit := emit (Log ERROR msg).

End logger.

(** [selectors.DefaultSelector()], the module-level [selector]. *)
Module selector.

(** [_fileobj_lookup]: the descriptor of an open socket; for a closed one
    ([fileno()] is -1) the table is searched for the object itself, and
    [ValueError] is raised when it is not there. *)
Definition fileobj_lookup (s : sock) : M Z :=
  fun w =>
    match fileno w !! s with
    | Some n => (Ok n, w)
    | None =>
      match List.find (fun kv => Nat.eqb (fileobj kv.2) s)
                      (map_to_list (fd_to_key w)) with
      | Some kv => (Ok (fd kv.2), w)
      | None => (Raise ValueError, w)
      end
    end.

(** [register(fileobj, EVENT_READ, data=tag)]: [KeyError] when the
    descriptor is already in the table. *)
Definition register (s : sock) (tag : string) : M unit :=
  let* n := fileobj_lookup s in
  fun w =>
    match fd_to_key w !! n with
    | Some _ => (Raise (KeyError AlreadyRegistered), w)
    | None =>
      let key := {| fileobj := s; fd := n; events := EVENT_READ;
                    data := tag |} in
      (Ok tt, record (Register s n tag)
                (set_fd_to_key (<[n := key]> (fd_to_key w)) w))
    end.

(** [unregister(fileobj)]: [KeyError] when the descriptor is not in the
    table. *)
Definition unregister (s : sock) : M unit :=
  let* n := fileobj_lookup s in
  fun w =>
    match fd_to_key w !! n with
    | None => (Raise (KeyError NotRegistered), w)
    | Some _ =>
      (Ok tt, record (Unregister s n)
                (set_fd_to_key (delete n (fd_to_key w)) w))
    end.

End selector.

Definition POLL_TIMEOUT : option Q := Some (Qmake 1 10).

Section Server.

Variable os : os_model.

(** [selector.select(timeout)]: the keys of the ready descriptors that
    are in the table, in the order the kernel reported them. *)
Definition select (timeout : option Q) : M (list SelectorKey) :=
  fun w =>
    match os_epoll os w with
    | Raise e => (Raise e, w)
    | Ok ready =>
      let keys := omap (fun n => fd_to_key w !! n) ready in
      (Ok keys, record (Select timeout keys) w)
    end.

(** A call on a socket object: [OSError(EBADF)] when it is closed,
    else whatever the system answers; the call and its answer are
    recorded. *)
Definition on_open {A} (s : sock) (answer : world -> result A)
    (act : result A -> action) : M A :=
  fun w =>
    match fileno w !! s with
    | None => (Raise (OSError EBADF), record (act (Raise (OSError EBADF))) w)
    | Some _ => (answer w, record (act (answer w)) w)
    end.

(** [socket.socket(AF_INET, SOCK_STREAM)]. *)
Definition socket : M sock :=
  fun w =>
    match os_socket os w with
    | Raise e => (Raise e, w)
    | Ok n => (Ok (created w), record (Socket (created w) n) (new_sock n w))
    end.

Definition setsockopt (s : sock) : M unit := emit (SetSockOpt s).
Definition setblocking (s : sock) : M unit := emit (SetBlocking s).
Definition listen (s : sock) : M unit := emit (Listen s).

Definition bind_addr (s : sock) (a : addr) : M unit :=
  on_open s (fun w => os_bind os w s) (Bind s a).

(** [asyncio.get_event_loop().sock_accept(l)]. *)
Definition sock_accept (l : sock) : M (sock * addr) :=
  fun w =>
    match fileno w !! l with
    | None => (Raise (OSError EBADF), record (Accept l (Raise (OSError EBADF))) w)
    | Some _ =>
      match os_accept os w l with
      | Raise e => (Raise e, record (Accept l (Raise e)) w)
      | Ok (n, a) =>
        (Ok (created w, a),
         record (Accept l (Ok (created w, n, a))) (new_sock n w))
      end
    end.

(** [asyncio.get_event_loop().sock_recv(s, max)]. *)
Definition sock_recv (s : sock) (max : N) : M bytes :=
  on_open s (fun w => os_recv os w s) (Recv s max).

(** [asyncio.get_event_loop().sock_sendall(s, data=payload)]. *)
Definition sock_sendall (s : sock) (payload : bytes) : M unit :=
  on_open s (fun w => os_sendall os w s payload) (SendAll s payload).

Definition getpeername (s : sock) : M addr :=
  on_open s (fun w => os_getpeername os w s) (GetPeerName s).

(** [s.close()]: releases the descriptor; a closed socket stays closed. *)
Definition close (s : sock) : M unit :=
  fun w =>
    match fileno w !! s with
    | None => (Ok tt, w)
    | Some n => (Ok tt, record (Close s n) (set_fileno (delete s (fileno w)) w))
    end.

Definition decode (b : bytes) : M str :=
  match Codec.decode b with
  | Some s => ret s
  | None => raise UnicodeDecodeError
  end.

Definition encode (s : str) : M bytes :=
  match Codec.encode s with
  | Some b => ret b
  | None => raise UnicodeEncodeError
  end.

(** ** The server: [main.py] *)

Definition HOST : N * N * N * N := (127, 0, 0, 1).
Definition PORT : N := 8000.

(** [server_socket(host, port)] up to its [yield]: the listening socket,
    bound, non-blocking and registered under "client_connected". *)
Definition server_socket_enter (h : N * N * N * N) (p : N) : M sock :=
  let* listening_socket := socket in
  setsockopt listening_socket >>
  bind_addr listening_socket {| host := h; port := p |} >>
  setblocking listening_socket >>
  selector.register listening_socket "client_connected" >>
  ret listening_socket.

(** The [finally] block of [server_socket]. *)
Definition server_socket_exit (listening_socket : sock) : M unit :=
  selector.unregister listening_socket >>
  close listening_socket.

Definition accept_client (listening_socket : sock) : M (sock * addr) :=
  let* '(client_connection_socket, a) := sock_accept listening_socket in
  setblocking client_connection_socket >>
  selector.register client_connection_socket "data_received" >>
  ret (client_connection_socket, a).

Definition process_client_io (client_connection_socket : sock) : M unit :=
  let* buffer_data := sock_recv client_connection_socket 1024 in
  match buffer_data with
  | _ :: _ =>
    let* peer := getpeername client_connection_socket in
    let* text := decode buffer_data in
    logger.info (Codec.lit "Client=" ++ show_addr peer
                 ++ Codec.lit " | Received: " ++ text) >>
    let* peer' := getpeername client_connection_socket in
    let* text' := decode buffer_data in
    let echo_payload :=
      Codec.lit "Client=" ++ show_addr peer' ++ Codec.lit "| Echo: "
        ++ text' in
    let* payload := encode echo_payload in
    sock_sendall client_connection_socket payload
  | [] =>
    let* peer := getpeername client_connection_socket in
    logger.info (Codec.lit "Closing connection to " ++ show_addr peer) >>
    selector.unregister client_connection_socket >>
    close client_connection_socket
  end.

(** The body of [for key, _ in events]: one [match key.data]. *)
Definition dispatch (listening_socket : sock) (key : SelectorKey) : M unit :=
  if String.eqb (data key) "client_connected" then
    let* '(client_connection_socket, _) := accept_client listening_socket in
    (* a socket object is always truthy *)
    let* client_connection_socket_peer_name :=
      getpeername client_connection_socket in
    logger.info (Codec.lit "Received connection from "
                 ++ show_addr client_connection_socket_peer_name) >>
    logger.info (Codec.lit "Connected to client "
                 ++ show_addr client_connection_socket_peer_name)
  else if String.eqb (data key) "data_received" then
    process_client_io (fileobj key)
  else
    logger.error (Codec.lit "Unknown event: " ++ Codec.lit (data key)).

Fixpoint for_events (listening_socket : sock) (evs : list SelectorKey)
    : M unit :=
  match evs with
  | [] => ret tt
  | key :: rest =>
    dispatch listening_socket key >> for_events listening_socket rest
  end.

(** [polls] rounds of the [while True] loop; [Ok] means that the loop is
    still running after them. *)
Fixpoint dispatch_loop (polls : nat) (listening_socket : sock) : M unit :=
  match polls with
  | O => ret tt
  | S polls' =>
    let* evs := select POLL_TIMEOUT in
    for_events listening_socket evs >>
    dispatch_loop polls' listening_socket
  end.

(** [async with server_socket(...)] around a body that only leaves by an
    exception: the [finally] block runs when the body raised, and the
    exception goes on (replaced by the one of the [finally] block, if
    that raises too). *)
Definition with_server_socket (listening_socket : sock) (body : M unit)
    : M unit :=
  fun w =>
    match body w with
    | (Ok tt, w') => (Ok tt, w')
    | (Raise e, w') => finally (raise e) (server_socket_exit listening_socket) w'
    end.

(** [main()], followed for [polls] rounds of its loop. *)
Definition main (polls : nat) : M unit :=
  let* listening_socket := server_socket_enter HOST PORT in
  with_server_socket listening_socket
    (logger.info (Codec.lit "Server listening on " ++ dotted HOST
                  ++ Codec.lit ":" ++ dec PORT) >>
     listen listening_socket >>
     dispatch_loop polls listening_socket).

End Server.

(** ** Concrete situations *)

Module Demo.

(** The peer every example talks to. *)
Definition peer : addr := {| host := (127, 0, 0, 1); port := 54321 |}.

Definition listening_key : SelectorKey :=
  {| fileobj := 0%nat; fd := 3; events := EVENT_READ;
     data := "client_connected" |}.

Definition connection_key (s : sock) (n : Z) : SelectorKey :=
  {| fileobj := s; fd := n; events := EVENT_READ; data := "data_received" |}.

(** A server with its listening socket (object 0, descriptor 3) and two
    accepted connections (objects 1 and 2, descriptors 5 and 6), all
    registered. *)
Definition serving : world :=
  {| fd_to_key := {[ 3%Z := listening_key; 5%Z := connection_key 1 5;
                     6%Z := connection_key 2 6 ]};
     fileno := {[ 0%nat := 3%Z; 1%nat := 5%Z; 2%nat := 6%Z ]};
     created := 3;
     trace := [] |}.

(** One more than the largest descriptor in use, and at least 3. *)
Definition next_fd (w : world) : Z :=
  Z.succ (foldr Z.max 2%Z ((map_to_list (fileno w)).*2)).

(** A system on which every call succeeds: new descriptors are unused
    ones, every registered descriptor is reported ready, and what a read
    returns and whether the peer address is known are given per socket. *)
Definition system (chunk : sock -> result bytes)
    (peername : sock -> result addr) : os_model :=
  {| os_socket := fun w => Ok (next_fd w);
     os_bind := fun _ _ => Ok tt;
     os_accept := fun w _ => Ok (next_fd w, peer);
     os_recv := fun _ s => chunk s;
     os_getpeername := fun _ s => peername s;
     os_sendall := fun _ _ _ => Ok tt;
     os_epoll := fun w => Ok ((map_to_list (fd_to_key w)).*1) |}.

(** The same system, except that each poll reports [ready]. *)
Definition polling (ready : list Z) (os : os_model) : os_model :=
  {| os_socket := os_socket os; os_bind := os_bind os;
     os_accept := os_accept os; os_recv := os_recv os;
     os_getpeername := os_getpeername os; os_sendall := os_sendall os;
     os_epoll := fun _ => Ok ready |}.

(** The test client's message "42". *)
Definition forty_two : bytes := [x34; x32].

(** A key whose tag is neither of the two the server registers. *)
Definition odd_key : SelectorKey :=
  {| fileobj := 1%nat; fd := 5; events := EVENT_READ; data := "bogus" |}.

(** Connection 1 was reset by its peer: its read raises. *)
Definition reset_on_1 (s : sock) : result bytes :=
  if Nat.eqb s 1 then Raise (OSError ECONNRESET) else Ok forty_two.

End Demo.

(** ** Reading a trace *)

(** What a trace says about the selector's table and the sockets: which
    socket each watched descriptor was registered for, which sockets are
    open and on which descriptor, and how many socket objects were made. *)
Record view := {
  watched : gmap Z sock;
  live : gmap sock Z;
  made : nat;
}.

Definition nothing : view := {| watched := ∅; live := ∅; made := 0 |}.

Definition opened (s : sock) (n : Z) (v : view) : view :=
  {| watched := watched v; live := <[s := n]> (live v); made := S (made v) |}.

(** The view after one more action. *)
Definition after (v : view) (a : action) : view :=
  match a with
  | Socket s n => opened s n v
  | Accept _ (Ok (s, n, _)) => opened s n v
  | Register s n _ =>
    {| watched := <[n := s]> (watched v); live := live v; made := made v |}
  | Unregister _ n =>
    {| watched := delete n (watched v); live := live v; made := made v |}
  | Close s _ =>
    {| watched := watched v; live := delete s (live v); made := made v |}
  | _ => v
  end.

Definition view_of (t : list action) : view := fold_left after t nothing.

(** The socket is open and its descriptor is watched on its behalf. *)
Definition is_watched (v : view) (s : sock) : Prop :=
  exists n, live v !! s = Some n /\ watched v !! n = Some s.

(** No open socket holds the descriptor. *)
Definition free (v : view) (n : Z) : Prop :=
  forall s, live v !! s <> Some n.

(** Every watched descriptor is the descriptor of an open socket: of the
    listening socket or of a connection that was not closed yet. *)
Definition registered_open (v : view) : Prop :=
  forall n s, watched v !! n = Some s -> live v !! s = Some n.

(** What the discipline of the spec permits as the next action: accepting,
    reading and writing only on a socket that is watched; registering only
    an open socket whose descriptor has no entry yet; unregistering only
    an entry that is there; closing only a socket that is not watched any
    more; new socket objects are new, on a descriptor nobody holds. *)
Definition allowed (v : view) (a : action) : Prop :=
  match a with
  | Recv s _ _ => is_watched v s
  | SendAll s _ _ => is_watched v s
  | Accept l r =>
    is_watched v l
    /\ match r with
       | Ok (s, n, _) => s = made v /\ free v n
       | Raise _ => True
       end
  | Socket s n => s = made v /\ free v n
  | Register s n _ => live v !! s = Some n /\ watched v !! n = None
  | Unregister s n => watched v !! n = Some s
  | Close s n => live v !! s = Some n /\ watched v !! n = None
  | _ => True
  end.

(** The trace, walked from the view [v] on, keeps to the discipline at
    every instant. *)
Fixpoint obeys (v : view) (t : list action) : Prop :=
  match t with
  | [] => registered_open v
  | a :: t' => registered_open v /\ allowed v a /\ obeys (after v a) t'
  end.

Definition disciplined (t : list action) : Prop := obeys nothing t.

(** Reads and writes, and the socket they are on. *)
Definition io_on (a : action) : option sock :=
  match a with
  | Recv s _ _ => Some s
  | SendAll s _ _ => Some s
  | _ => None
  end.

(** Once a socket was closed, the trace has no read or write on it. *)
Fixpoint silent_after_close (t : list action) : Prop :=
  match t with
  | [] => True
  | Close s _ :: t' =>
    Forall (fun a => io_on a <> Some s) t' /\ silent_after_close t'
  | _ :: t' => silent_after_close t'
  end.

(** ** The state of the process, seen as a view *)

Definition world_view (w : world) : view :=
  {| watched := fileobj <$> fd_to_key w; live := fileno w;
     made := created w |}.

(** The tables of a state fit together. *)
Record tidy (w : world) : Prop := {
  tidy_keys : forall n k,
    fd_to_key w !! n = Some k -> fd k = n /\ fileno w !! fileobj k = Some n;
  tidy_inj : forall s s' n,
    fileno w !! s = Some n -> fileno w !! s' = Some n -> s = s';
  tidy_made : forall s n, fileno w !! s = Some n -> (s < created w)%nat;
}.

(** The invariant of the server: the tables fit together, the trace
    accounts for them, and the trace kept to the discipline. *)
Record consistent (w : world) : Prop := {
  consistent_tidy : tidy w;
  consistent_view : view_of (trace w) = world_view w;
  consistent_trace : disciplined (trace w);
}.

(** What is assumed of the operating system: a new socket gets a descriptor
    that no open socket holds, and one poll reports a descriptor once. *)
Record sane (os : os_model) : Prop := {
  sane_socket : forall w n,
    os_socket os w = Ok n -> forall s, fileno w !! s <> Some n;
  sane_accept : forall w l n a,
    os_accept os w l = Ok (n, a) -> forall s, fileno w !! s <> Some n;
  sane_epoll : forall w ready, os_epoll os w = Ok ready -> NoDup ready;
}.

(** The entries of the table other than descriptor [n], and the sockets
    other than [s], are still there. *)
Definition survive (n : Z) (s : sock) (w w' : world) : Prop :=
  (forall m k, m <> n -> fd_to_key w !! m = Some k -> fd_to_key w' !! m = Some k)
  /\ (forall s' m, s' <> s -> fileno w !! s' = Some m -> fileno w' !! s' = Some m).

(** The listening socket is open and registered under "client_connected". *)
Definition listening (ls : sock) (w : world) : Prop :=
  exists n k, fileno w !! ls = Some n /\ fd_to_key w !! n = Some k
              /\ data k = "client_connected"%string.

(** The ready entries still to be handled are entries of the table, one
    per descriptor. *)
Definition batch_ok (evs : list SelectorKey) (w : world) : Prop :=
  NoDup (fd <$> evs) /\ forall k, k ∈ evs -> fd_to_key w !! fd k = Some k.

(** ** Closing *)

(** Walking a trace with the action before in hand: every [Close] comes
    right after the [Unregister] of the same socket and descriptor. *)
Fixpoint close_follows_unregister (prev : option action) (t : list action)
    : Prop :=
  match t with
  | [] => True
  | a :: t' =>
    match a with
    | Close s n => prev = Some (Unregister s n)
    | _ => True
    end
    /\ close_follows_unregister (Some a) t'
  end.

Definition is_close (a : action) : bool :=
  match a with Close _ _ => true | _ => false end.

(** ** Batches *)

Definition is_select (a : action) : bool :=
  match a with Select _ _ => true | _ => false end.


(** The first thing the loop body does for a ready entry: an accept on the
    listening socket, a read of at most 1024 bytes on the entry's socket,
    or the error message for an unknown tag. *)
Definition begins (ls : sock) (k : SelectorKey) (a : action) : bool :=
  match a with
  | Accept l _ => String.eqb (data k) "client_connected" && Nat.eqb l ls
  | Recv s max _ =>
    negb (String.eqb (data k) "client_connected")
    && String.eqb (data k) "data_received"
    && Nat.eqb s (fileobj k) && N.eqb max 1024
  | Log ERROR msg =>
    negb (String.eqb (data k) "client_connected")
    && negb (String.eqb (data k) "data_received")
    && bool_decide (msg = Codec.lit "Unknown event: " ++ Codec.lit (data k))
  | _ => false
  end.

Definition is_begin (a : action) : bool :=
  match a with
  | Accept _ _ => true
  | Recv _ _ _ => true
  | Log ERROR _ => true
  | _ => false
  end.

(** Walking a trace with the ready entries still to be handled in hand: a
    poll is only made when none is left, and with a finite timeout; what
    it returns becomes the entries to handle; and each handling begins
    with the entry that is first in line.  The result is what is left to
    handle at the end, or [None] when the trace breaks this order. *)
Fixpoint in_batch_order (ls : sock) (pending : list SelectorKey)
    (t : list action) : option (list SelectorKey) :=
  match t with
  | [] => Some pending
  | Select timeout ready :: t' =>
    match pending, timeout with
    | [], Some _ => in_batch_order ls ready t'
    | _, _ => None
    end
  | a :: t' =>
    if is_begin a then
      match pending with
      | k :: rest =>
        if begins ls k a then in_batch_order ls rest t' else None
      | [] => None
      end
    else in_batch_order ls pending t'
  end.

(** Neither a poll nor the beginning of a handling. *)
Definition is_inner (a : action) : bool := negb (is_begin a) && negb (is_select a).

(** ** Small readers of actions, text and views *)

(** Reading off what an action is. *)
Definition is_send (a : action) : bool :=
  match a with SendAll _ _ _ => true | _ => false end.

(** Text that is plain ASCII. *)
Definition ascii_only (s : str) : bool := forallb (fun c => c <? 128) s.

(** Socket objects are numbered as they are made. *)
Definition numbered (v : view) : Prop :=
  forall s n, live v !! s = Some n -> (s < made v)%nat.

(** The last action of [t], or [prev] when [t] is empty. *)
Definition last_or (prev : option action) (t : list action) : option action :=
  match last t with
  | Some a => Some a
  | None => prev
  end.

(** Every [Close] of the trace so far came right after its [Unregister]. *)
Definition orderly (w : world) : Prop :=
  close_follows_unregister None (trace w).

(** The "client_connected" branch of [dispatch]. *)
Definition accept_branch (os : os_model) (ls : sock) : M unit :=
  bind (accept_client os ls) (fun '(c, _) =>
  bind (getpeername os c) (fun name =>
  bind (logger.info (Codec.lit "Received connection from " ++ show_addr name))
       (fun _ => logger.info (Codec.lit "Connected to client " ++ show_addr name)))).

(** ** Which socket an action is on *)

Definition socket_of (a : action) : option sock :=
  match a with
  | Log _ _ => None
  | Select _ _ => None
  | Socket s _ => Some s
  | SetSockOpt s => Some s
  | Bind s _ _ => Some s
  | SetBlocking s => Some s
  | Listen s => Some s
  | Register s _ _ => Some s
  | Unregister s _ => Some s
  | Accept l _ => Some l
  | Recv s _ _ => Some s
  | GetPeerName s _ => Some s
  | SendAll s _ _ => Some s
  | Close s _ => Some s
  end.

(** The action is a message, or is on socket [s]. *)
Definition concerns (s : sock) (a : action) : bool :=
  match socket_of a with
  | None => true
  | Some s' => Nat.eqb s' s
  end.

Definition is_recv (a : action) : bool :=
  match a with Recv _ _ _ => true | _ => false end.

Definition is_error_log (a : action) : bool :=
  match a with Log ERROR _ => true | _ => false end.

(** Every entry of the table carries one of the two tags of the server. *)
Definition well_tagged (t : gmap Z SelectorKey) : Prop :=
  map_Forall (fun _ k => data k = "client_connected"%string
                         \/ data k = "data_received"%string) t.

(** ** More concrete situations *)

Module Scenario.

(** The same system, except that the next accepted connection gets
    descriptor [n]. *)
Definition handing_out (n : Z) (os : os_model) : os_model :=
  {| os_socket := os_socket os; os_bind := os_bind os;
     os_accept := fun _ _ => Ok (n, Demo.peer); os_recv := os_recv os;
     os_getpeername := os_getpeername os; os_sendall := os_sendall os;
     os_epoll := os_epoll os |}.

(** The same system, except that the address is in use: [bind] raises
    EADDRINUSE. *)
Definition address_in_use (os : os_model) : os_model :=
  {| os_socket := os_socket os; os_bind := fun _ _ => Raise (OSError 98);
     os_accept := os_accept os; os_recv := os_recv os;
     os_getpeername := os_getpeername os; os_sendall := os_sendall os;
     os_epoll := os_epoll os |}.

(** Peers that send "42" and are known by their address. *)
Definition chatty : os_model :=
  Demo.system (fun _ => Ok Demo.forty_two) (fun _ => Ok Demo.peer).

(** Peers that have closed their side. *)
Definition leaving : os_model :=
  Demo.system (fun _ => Ok []) (fun _ => Ok Demo.peer).

End Scenario.

(** ** Runs without an unknown event *)

(** One of the two tags the server registers sockets under. *)
Definition known_tag (k : SelectorKey) : Prop :=
  data k = "client_connected"%string \/ data k = "data_received"%string.

(** The table holds known tags only and nothing was logged at the error
    level. *)
Definition calm (w : world) : Prop :=
  well_tagged (fd_to_key w)
  /\ Forall (fun a => is_error_log a = false) (trace w).

(** ** Writes that are echoes *)

(** The label in front of an echoed chunk. *)
Definition echo_label (a : addr) : bytes :=
  map Codec.byte_of
    (Codec.lit "Client=" ++ show_addr a ++ Codec.lit "| Echo: ").

(** With [before] the actions made so far, nearest first: a write is the
    answer to a read of a non-empty chunk on the same socket, made in the
    same handling, and its payload is the label followed by that chunk. *)
Definition is_echo (before : list action) (a : action) : Prop :=
  match a with
  | SendAll s payload _ =>
    exists chunk a1 text a2 rest,
      before = GetPeerName s (Ok a2) :: Log INFO text
                 :: GetPeerName s (Ok a1) :: Recv s 1024 (Ok chunk) :: rest
      /\ chunk <> []
      /\ payload = echo_label a2 ++ chunk
  | _ => True
  end.

Fixpoint echoes_only (before : list action) (t : list action) : Prop :=
  match t with
  | [] => True
  | a :: t' => is_echo before a /\ echoes_only (a :: before) t'
  end.

(** What a handler added keeps to the echo rule, whatever came before. *)
Definition echoing (w w' : world) : Prop :=
  exists d, trace w' = trace w ++ d /\ forall before, echoes_only before d.

(** ** The test client: [client.py] *)

Module Client.

(** What the client process did. *)
Inductive event :=
| Socket (s : sock)
| Connect (s : sock) (a : addr) (r : result unit)
| Print (text : str) (r : result unit)
| Sleep (secs : N) (r : result unit)
| RandInt (lo hi n : N)
| SendAll (s : sock) (payload : bytes) (r : result unit)
| Recv (s : sock) (max : N) (r : result bytes).

(** The state of the client process: the socket objects made so far and
    what it did, oldest first. *)
Record state := {
  made : nat;
  log : list event;
}.

Definition start : state := {| made := 0; log := [] |}.

Definition note (ev : event) (st : state) : state :=
  {| made := made st; log := log st ++ [ev] |}.

(** What the system, the server and the user answer to the client.  Every
    answer may depend on everything that happened so far; [env_draw] is
    the next number of the random generator, [env_print] is what writing
    a line to the standard output gives, [env_str] is [str(e)]. *)
Record env := {
  env_socket : state -> result unit;
  env_connect : state -> sock -> result unit;
  env_sleep : state -> result unit;
  env_draw : state -> N;
  env_sendall : state -> sock -> bytes -> result unit;
  env_recv : state -> sock -> result bytes;
  env_print : state -> str -> result unit;
  env_str : exn -> str;
}.

Definition M (A : Type) : Type := state -> result A * state.

Definition ret {A} (a : A) : M A := fun st => (Ok a, st).

Definition bind {A B} (m : M A) (k : A -> M B) : M B :=
  fun st =>
    match m st with
    | (Ok a, st') => k a st'
    | (Raise e, st') => (Raise e, st')
    end.

Definition raise {A} (e : exn) : M A := fun st => (Raise e, st).

(** The classes derived from [Exception]; [KeyboardInterrupt] derives from
    [BaseException] only. *)
Definition is_Exception (e : exn) : bool :=
  match e with
  | KeyboardInterrupt => false
  | _ => true
  end.

(** [try: body except Exception as e: handler(e)]. *)
Definition try_except {A} (body : M A) (handler : exn -> M A) : M A :=
  fun st =>
    match body st with
    | (Ok a, st') => (Ok a, st')
    | (Raise e, st') =>
      if is_Exception e then handler e st' else (Raise e, st')
    end.

Declare Scope client_scope.
Notation "'let*' x ':=' m 'in' k" := (bind m (fun x => k))
  (at level 10, x name, m at level 100, k at level 200) : client_scope.
Notation "m '>>' k" := (bind m (fun _ => k))
  (at level 100, k at level 200, right associativity) : client_scope.
Local Open Scope client_scope.

Section Process.

Variable sys : env.

(** A call whose answer comes from outside; the call and its answer are
    recorded. *)
Definition call {A} (answer : state -> result A) (ev : result A -> event)
    : M A :=
  fun st => (answer st, note (ev (answer st)) st).

(** [socket.socket(AF_INET, SOCK_STREAM)]. *)
Definition socket : M sock :=
  fun st =>
    match env_socket sys st with
    | Raise e => (Raise e, st)
    | Ok _ =>
      (Ok (made st),
       {| made := S (made st); log := log st ++ [Socket (made st)] |})
    end.

Definition connect (s : sock) (a : addr) : M unit :=
  call (fun st => env_connect sys st s) (Connect s a).

Definition sendall (s : sock) (payload : bytes) : M unit :=
  call (fun st => env_sendall sys st s payload) (SendAll s payload).

Definition recv (s : sock) (max : N) : M bytes :=
  call (fun st => env_recv sys st s) (Recv s max).

(** [time.sleep(secs)]; this is where the user's Ctrl-C arrives. *)
Definition sleep (secs : N) : M unit := call (env_sleep sys) (Sleep secs).

(** [random.randint(lo, hi)]: a number from [lo] to [hi], both included. *)
Definition randint (lo hi : N) : M N :=
  fun st =>
    let n := lo + env_draw sys st mod (hi - lo + 1) in
    (Ok n, note (RandInt lo hi n) st).

(** [print(text)]: raises when the standard output is closed or broken. *)
Definition print (text : str) : M unit :=
  call (fun st => env_print sys st text) (Print text).

Definition encode (s : str) : M bytes :=
  match Codec.encode s with
  | Some b => ret b
  | None => raise UnicodeEncodeError
  end.

Definition decode (b : bytes) : M str :=
  match Codec.decode b with
  | Some s => ret s
  | None => raise UnicodeDecodeError
  end.

Definition HOST : N * N * N * N := (127, 0, 0, 1).
Definition PORT : N := 8000.

Definition create_client_socket : M sock :=
  let* client_socket := socket in
  connect client_socket {| host := HOST; port := PORT |} >>
  ret client_socket.

Definition send_and_receive_data (client_socket : sock) (data : str)
    : M str :=
  let* payload := encode data in
  sendall client_socket payload >>
  let* response := recv client_socket 1024 in
  decode response.

(** The body of [while True]: one [try ... except Exception]. *)
Definition iteration (client_socket : sock) : M unit :=
  try_except
    (sleep 1 >>
     let* n := randint 0 100 in
     let data_to_send := dec n in
     print (Codec.lit "Sending data to server: " ++ data_to_send) >>
     let* response := send_and_receive_data client_socket data_to_send in
     print (Codec.lit "Received response from server: " ++ response))
    (fun e => print (Codec.lit "An error occurred: " ++ env_str sys e)).

(** [rounds] rounds of the [while True] loop; [Ok] means that the loop is
    still running after them. *)
Fixpoint loop (rounds : nat) (client_socket : sock) : M unit :=
  match rounds with
  | O => ret tt
  | S rounds' => iteration client_socket >> loop rounds' client_socket
  end.

(** [main()], followed for [rounds] rounds of its loop. *)
Definition main (rounds : nat) : M unit :=
  let* client_socket := create_client_socket in
  print (Codec.lit "Connected to server at " ++ dotted HOST
         ++ Codec.lit ":" ++ dec PORT) >>
  loop rounds client_socket.

End Process.

(** ** Reading the client's log *)

Definition is_connect (ev : event) : bool :=
  match ev with
  | Socket _ => true
  | Connect _ _ _ => true
  | _ => false
  end.

(** The event is no new socket and no connect, and if it is a call on a
    socket, the socket is [s]. *)
Definition stays_on (s : sock) (ev : event) : bool :=
  match ev with
  | Socket _ => false
  | Connect _ _ _ => false
  | SendAll s' _ _ => Nat.eqb s' s
  | Recv s' _ _ => Nat.eqb s' s
  | _ => true
  end.

(** The message is a number from 0 to 100 in decimal digits. *)
Definition small_number (payload : bytes) : Prop :=
  exists n, n <= 100 /\ payload = map Codec.byte_of (dec n).

Definition sends_small_number (ev : event) : Prop :=
  match ev with
  | SendAll _ payload _ => small_number payload
  | _ => True
  end.

(** ** Concrete situations *)

(** A server that answers every message with [reply]; the generator
    draws 42 each time; nothing fails. *)
Definition answering (reply : bytes) : env :=
  {| env_socket := fun _ => Ok tt;
     env_connect := fun _ _ => Ok tt;
     env_sleep := fun _ => Ok tt;
     env_draw := fun _ => 42;
     env_sendall := fun _ _ _ => Ok tt;
     env_recv := fun _ _ => Ok reply;
     env_print := fun _ _ => Ok tt;
     env_str := fun _ => Codec.lit "error" |}.

(** Nobody listens on the port: [connect] raises ECONNREFUSED. *)
Definition refused : env :=
  {| env_socket := fun _ => Ok tt;
     env_connect := fun _ _ => Raise (OSError 111);
     env_sleep := fun _ => Ok tt;
     env_draw := fun _ => 42;
     env_sendall := fun _ _ _ => Ok tt;
     env_recv := fun _ _ => Ok [];
     env_print := fun _ _ => Ok tt;
     env_str := fun _ => Codec.lit "error" |}.

(** The server is gone (every write raises EPIPE), and the user presses
    Ctrl-C once the log has [patience] entries. *)
Definition abandoned (patience : nat) : env :=
  {| env_socket := fun _ => Ok tt;
     env_connect := fun _ _ => Ok tt;
     env_sleep := fun st =>
       if (patience <=? length (log st))%nat then Raise KeyboardInterrupt
       else Ok tt;
     env_draw := fun st => N.of_nat (length (log st));
     env_sendall := fun _ _ _ => Raise (OSError 32);
     env_recv := fun _ _ => Ok [];
     env_print := fun _ _ => Ok tt;
     env_str := fun _ => Codec.lit "error" |}.

End Client.

(** ** Situations of the error paths *)

Module Fault.

(** Whether the trace has a read on [s] that returned no bytes. *)
Definition saw_end (s : sock) (w : world) : bool :=
  existsb (fun a => match a with
                    | Recv s' _ (Ok []) => Nat.eqb s' s
                    | _ => false
                    end) (trace w).

(** Peers that are gone for good once their close was noticed: every read
    returns no bytes, and after such a read the peer address cannot be had
    any more (the FIN was followed by a reset). *)
Definition vanishing : os_model :=
  {| os_socket := fun w => Ok (Demo.next_fd w);
     os_bind := fun _ _ => Ok tt;
     os_accept := fun w _ => Ok (Demo.next_fd w, Demo.peer);
     os_recv := fun _ _ => Ok [];
     os_getpeername := fun w s =>
       if saw_end s w then Raise (OSError ENOTCONN) else Ok Demo.peer;
     os_sendall := fun _ _ _ => Ok tt;
     os_epoll := fun w => Ok ((map_to_list (fd_to_key w)).*1) |}.

(** A table in which, between a connection and the listening socket, one
    entry carries a tag the server does not know. *)
Definition mixed : world :=
  {| fd_to_key := {[ 3%Z := Demo.listening_key; 5%Z := Demo.odd_key;
                     6%Z := Demo.connection_key 2 6 ]};
     fileno := {[ 0%nat := 3%Z; 1%nat := 5%Z; 2%nat := 6%Z ]};
     created := 3;
     trace := [] |}.

(** Connection 2 was reset by its peer: its read raises. *)
Definition reset_on_2 (s : sock) : result bytes :=
  if Nat.eqb s 2 then Raise (OSError ECONNRESET) else Ok Demo.forty_two.

End Fault.

(** The system raises [OSError] and the like, never a [KeyError]: that
    one is the selector's. *)
Record polite (os : os_model) : Prop := {
  polite_socket : forall w why, os_socket os w <> Raise (KeyError why);
  polite_bind : forall w s why, os_bind os w s <> Raise (KeyError why);
  polite_accept : forall w l why, os_accept os w l <> Raise (KeyError why);
  polite_recv : forall w s why, os_recv os w s <> Raise (KeyError why);
  polite_getpeername : forall w s why,
    os_getpeername os w s <> Raise (KeyError why);
  polite_sendall : forall w s payload why,
    os_sendall os w s payload <> Raise (KeyError why);
  polite_epoll : forall w why, os_epoll os w <> Raise (KeyError why);
}.

(** ** A system on which nothing fails *)

(** No call fails, and every chunk that is read is well-formed UTF-8. *)
Record obliging (os : os_model) : Prop := {
  obliging_socket : forall w, exists n, os_socket os w = Ok n;
  obliging_bind : forall w s, os_bind os w s = Ok tt;
  obliging_accept : forall w l, exists n a, os_accept os w l = Ok (n, a);
  obliging_recv : forall w s,
    exists b text, os_recv os w s = Ok b /\ Codec.decode b = Some text;
  obliging_getpeername : forall w s, exists a, os_getpeername os w s = Ok a;
  obliging_sendall : forall w s payload, os_sendall os w s payload = Ok tt;
  obliging_epoll : forall w, exists ready, os_epoll os w = Ok ready;
}.

(** ** Facts about the codec *)

Section CodecFacts.
Import Codec.

Lemma byte_of_to_N b : byte_of (Byte.to_N b) = b.
Proof. unfold byte_of. now rewrite Byte.of_to_N. Qed.

Lemma to_N_lt b : Byte.to_N b < 256.
Proof. pose proof (Byte.to_N_bounded b). lia. Qed.

Lemma between_spec lo hi b :
  between lo hi b = true <-> lo <= Byte.to_N b <= hi.
Proof. unfold between. rewrite andb_true_iff, !N.leb_le. tauto. Qed.

Lemma encode_app s t :
  encode (s ++ t) =
  match encode s, encode t with
  | Some a, Some b => Some (a ++ b)
  | _, _ => None
  end.
Proof.
  induction s as [|c s IH]; simpl.
  - now destruct (encode t).
  - rewrite IH. destruct (encode_point c), (encode s), (encode t); simpl;
      try reflexivity. now rewrite app_assoc.
Qed.

(** Decoding one more code point in front. *)
Lemma encode_cons_decoded c s bs rest :
  encode_point c = Some bs -> encode s = Some rest ->
  encode (c :: s) = Some (bs ++ rest).
Proof. intros H1 H2. simpl. now rewrite H1, H2. Qed.

Local Ltac numeric :=
  repeat match goal with
         | b : byte |- _ =>
           lazymatch goal with
           | _ : Byte.to_N b < 256 |- _ => fail
           | _ => pose proof (to_N_lt b)
           end
         end;
  zify; Z.to_euclidean_division_equations; lia.

Lemma encode_point_1 b0 :
  Byte.to_N b0 < 128 -> encode_point (Byte.to_N b0) = Some [b0].
Proof.
  intros H. unfold encode_point.
  destruct (N.ltb_spec (Byte.to_N b0) 128); [|lia].
  now rewrite byte_of_to_N.
Qed.

Lemma encode_point_2 b0 b1 :
  194 <= Byte.to_N b0 < 224 -> 128 <= Byte.to_N b1 <= 191 ->
  encode_point ((Byte.to_N b0 - 192) * 64 + tail_bits b1) = Some [b0; b1].
Proof.
  intros H0 H1. unfold encode_point, tail_bits.
  set (c := (Byte.to_N b0 - 192) * 64 + (Byte.to_N b1 - 128)).
  assert (Hc : 128 <= c < 2048) by (subst c; lia).
  destruct (N.ltb_spec c 128); [lia|].
  destruct (N.ltb_spec c 2048); [|lia].
  replace (192 + c / 64) with (Byte.to_N b0) by (subst c; numeric).
  replace (128 + c mod 64) with (Byte.to_N b1) by (subst c; numeric).
  now rewrite !byte_of_to_N.
Qed.

Lemma encode_point_3 b0 b1 b2 :
  224 <= Byte.to_N b0 < 240 ->
  (if Byte.to_N b0 =? 224 then 160 else 128) <= Byte.to_N b1
    <= (if Byte.to_N b0 =? 237 then 159 else 191) ->
  128 <= Byte.to_N b2 <= 191 ->
  encode_point ((Byte.to_N b0 - 224) * 4096 + tail_bits b1 * 64 + tail_bits b2)
  = Some [b0; b1; b2].
Proof.
  intros H0 H1 H2. unfold encode_point, tail_bits.
  set (c := (Byte.to_N b0 - 224) * 4096 + (Byte.to_N b1 - 128) * 64
            + (Byte.to_N b2 - 128)).
  assert (Hc : 2048 <= c < 65536 /\ ~ 55296 <= c <= 57343).
  { subst c. destruct (N.eqb_spec (Byte.to_N b0) 224),
      (N.eqb_spec (Byte.to_N b0) 237); lia. }
  assert (Hb : 128 <= Byte.to_N b1 <= 191).
  { destruct (N.eqb_spec (Byte.to_N b0) 224),
      (N.eqb_spec (Byte.to_N b0) 237); lia. }
  clear H1.
  destruct (N.ltb_spec c 128); [lia|].
  destruct (N.ltb_spec c 2048); [lia|].
  destruct (N.ltb_spec c 65536); [|lia].
  destruct (N.leb_spec 55296 c), (N.leb_spec c 57343); simpl; try lia.
  all: replace (224 + c / 4096) with (Byte.to_N b0)
         by (subst c; numeric).
  all: replace (128 + (c / 64) mod 64) with (Byte.to_N b1)
         by (subst c; numeric).
  all: replace (128 + c mod 64) with (Byte.to_N b2)
         by (subst c; numeric).
  all: now rewrite !byte_of_to_N.
Qed.

Lemma encode_point_4 b0 b1 b2 b3 :
  240 <= Byte.to_N b0 < 245 ->
  (if Byte.to_N b0 =? 240 then 144 else 128) <= Byte.to_N b1
    <= (if Byte.to_N b0 =? 244 then 143 else 191) ->
  128 <= Byte.to_N b2 <= 191 -> 128 <= Byte.to_N b3 <= 191 ->
  encode_point ((Byte.to_N b0 - 240) * 262144 + tail_bits b1 * 4096
                + tail_bits b2 * 64 + tail_bits b3)
  = Some [b0; b1; b2; b3].
Proof.
  intros H0 H1 H2 H3. unfold encode_point, tail_bits.
  set (c := (Byte.to_N b0 - 240) * 262144 + (Byte.to_N b1 - 128) * 4096
            + (Byte.to_N b2 - 128) * 64 + (Byte.to_N b3 - 128)).
  assert (Hc : 65536 <= c < 1114112).
  { subst c. destruct (N.eqb_spec (Byte.to_N b0) 240),
      (N.eqb_spec (Byte.to_N b0) 244); lia. }
  assert (Hb : 128 <= Byte.to_N b1 <= 191).
  { destruct (N.eqb_spec (Byte.to_N b0) 240),
      (N.eqb_spec (Byte.to_N b0) 244); lia. }
  clear H1.
  destruct (N.ltb_spec c 128); [lia|].
  destruct (N.ltb_spec c 2048); [lia|].
  destruct (N.ltb_spec c 65536); [lia|].
  destruct (N.ltb_spec c 1114112); [|lia].
  replace (240 + c / 262144) with (Byte.to_N b0) by (subst c; numeric).
  replace (128 + (c / 4096) mod 64) with (Byte.to_N b1) by (subst c; numeric).
  replace (128 + (c / 64) mod 64) with (Byte.to_N b2) by (subst c; numeric).
  replace (128 + c mod 64) with (Byte.to_N b3) by (subst c; numeric).
  now rewrite !byte_of_to_N.
Qed.

Local Ltac step_decoded IH :=
  match goal with
  | H : cons _ <$> decode ?r = Some _ |- _ =>
    apply fmap_Some in H; destruct H as (t & Ht & ->);
    apply IH in Ht; [|simpl in *; lia]
  end.

Lemma decode_encode_bounded (n : nat) :
  forall bs s, (length bs <= n)%nat -> decode bs = Some s -> encode s = Some bs.
Proof.
  induction n as [|n IH]; intros bs s Hlen Hd.
  { destruct bs; simpl in *; [now inversion Hd | lia]. }
  destruct bs as [|b0 r0]; [now inversion Hd|].
  simpl in Hd.
  destruct (N.ltb_spec (Byte.to_N b0) 128).
  { step_decoded IH.
    now apply (encode_cons_decoded _ _ [b0]); [apply encode_point_1|]. }
  destruct (N.ltb_spec (Byte.to_N b0) 194); [discriminate|].
  destruct (N.ltb_spec (Byte.to_N b0) 224).
  { destruct r0 as [|b1 r1]; [discriminate|].
    destruct (between 128 191 b1) eqn:E1; [|discriminate].
    apply between_spec in E1. step_decoded IH.
    now apply (encode_cons_decoded _ _ [b0; b1]); [apply encode_point_2|]. }
  destruct (N.ltb_spec (Byte.to_N b0) 240).
  { destruct r0 as [|b1 [|b2 r2]]; try discriminate.
    match type of Hd with (if ?c then _ else _) = _ =>
      destruct c eqn:E; [|discriminate] end.
    apply andb_true_iff in E as [E1 E2].
    apply between_spec in E1, E2. step_decoded IH.
    now apply (encode_cons_decoded _ _ [b0; b1; b2]);
      [apply encode_point_3|]. }
  destruct (N.ltb_spec (Byte.to_N b0) 245); [|discriminate].
  destruct r0 as [|b1 [|b2 [|b3 r3]]]; try discriminate.
  match type of Hd with (if ?c then _ else _) = _ =>
    destruct c eqn:E; [|discriminate] end.
  apply andb_true_iff in E as [E E3]. apply andb_true_iff in E as [E1 E2].
  apply between_spec in E1, E2, E3. step_decoded IH.
  now apply (encode_cons_decoded _ _ [b0; b1; b2; b3]);
    [apply encode_point_4|].
Qed.

(** Re-encoding what [decode] produced gives back the very octets that
    were decoded: a strict decoder accepts one form per code point. *)
Lemma decode_encode bs s : decode bs = Some s -> encode s = Some bs.
Proof. apply (decode_encode_bounded (length bs)). lia. Qed.

End CodecFacts.

(** ** Stepping through the runtime calls *)


Section Steps.
Variable os : os_model.

Lemma bind_ok {A B} (m : M A) (k : A -> M B) w a w' :
  m w = (Ok a, w') -> bind m k w = k a w'.
Proof. unfold bind. now intros ->. Qed.

Lemma bind_raise {A B} (m : M A) (k : A -> M B) w e w' :
  m w = (Raise e, w') -> bind m k w = (Raise e, w').
Proof. unfold bind. now intros ->. Qed.

Lemma on_open_live {A} s (answer : world -> result A) act w n :
  fileno w !! s = Some n ->
  on_open s answer act w = (answer w, record (act (answer w)) w).
Proof. unfold on_open. now intros ->. Qed.

Lemma sock_recv_live s max w n :
  fileno w !! s = Some n ->
  sock_recv os s max w
  = (os_recv os w s, record (Recv s max (os_recv os w s)) w).
Proof. intros H. unfold sock_recv. now rewrite (on_open_live _ _ _ _ _ H). Qed.

Lemma getpeername_live s w n :
  fileno w !! s = Some n ->
  getpeername os s w
  = (os_getpeername os w s, record (GetPeerName s (os_getpeername os w s)) w).
Proof. intros H. unfold getpeername. now rewrite (on_open_live _ _ _ _ _ H). Qed.

Lemma sock_sendall_live s payload w n :
  fileno w !! s = Some n ->
  sock_sendall os s payload w
  = (os_sendall os w s payload,
     record (SendAll s payload (os_sendall os w s payload)) w).
Proof. intros H. unfold sock_sendall. now rewrite (on_open_live _ _ _ _ _ H). Qed.

Lemma fileobj_lookup_live s w n :
  fileno w !! s = Some n -> selector.fileobj_lookup s w = (Ok n, w).
Proof. unfold selector.fileobj_lookup. now intros ->. Qed.

Lemma register_live s n tag w :
  fileno w !! s = Some n -> fd_to_key w !! n = None ->
  selector.register s tag w
  = (Ok tt,
     record (Register s n tag)
       (set_fd_to_key
          (<[n := {| fileobj := s; fd := n; events := EVENT_READ; data := tag |}]>
             (fd_to_key w)) w)).
Proof.
  intros Hs Hn. unfold selector.register, bind.
  now rewrite (fileobj_lookup_live s w n Hs), Hn.
Qed.

Lemma unregister_live s n w :
  fileno w !! s = Some n -> is_Some (fd_to_key w !! n) ->
  selector.unregister s w
  = (Ok tt, record (Unregister s n) (set_fd_to_key (delete n (fd_to_key w)) w)).
Proof.
  intros Hs [k Hk]. unfold selector.unregister, bind.
  now rewrite (fileobj_lookup_live s w n Hs), Hk.
Qed.

Lemma close_live s n w :
  fileno w !! s = Some n ->
  close s w = (Ok tt, record (Close s n) (set_fileno (delete s (fileno w)) w)).
Proof. unfold close. now intros ->. Qed.

End Steps.

(** ** Text that is plain ASCII *)


Section Ascii.
Import Codec.

Lemma ascii_only_app s t :
  ascii_only (s ++ t) = ascii_only s && ascii_only t.
Proof. apply forallb_app. Qed.

Lemma encode_ascii s :
  ascii_only s = true -> encode s = Some (map byte_of s).
Proof.
  induction s as [|c s IH]; simpl; [reflexivity|].
  intros [Hc Hs]%andb_true_iff. rewrite (IH Hs).
  unfold encode_point. now rewrite Hc.
Qed.

Lemma ascii_only_digits d :
  ascii_only (lit (NilEmpty.string_of_uint d)) = true.
Proof. induction d; simpl; auto. Qed.

Lemma ascii_only_dec n : ascii_only (dec n) = true.
Proof.
  unfold dec, NilZero.string_of_uint.
  destruct (N.to_uint n); try apply ascii_only_digits. reflexivity.
Qed.

Lemma ascii_only_show_addr a : ascii_only (show_addr a) = true.
Proof.
  unfold show_addr, dotted. destruct (host a) as [[[h1 h2] h3] h4].
  now rewrite !ascii_only_app, !ascii_only_dec.
Qed.

(** The label in front of the echoed text. *)
Lemma encode_label a text b :
  encode text = Some b ->
  encode (lit "Client=" ++ show_addr a ++ lit "| Echo: " ++ text)
  = Some (map byte_of (lit "Client=" ++ show_addr a ++ lit "| Echo: ") ++ b).
Proof.
  intros Hb.
  rewrite (app_assoc (lit "Client=")), (app_assoc _ (lit "| Echo: ")).
  rewrite encode_app, Hb, encode_ascii; [now rewrite <- !app_assoc|].
  now rewrite !ascii_only_app, ascii_only_show_addr.
Qed.

End Ascii.

(** ** The echo cycle *)

Section EchoCycle.
Variable os : os_model.

(** C10: a non-empty chunk that is not well-formed UTF-8 is never echoed:
    the cycle raises before any payload is written (it is the decode step
    that raises, [UnicodeDecodeError], once the peer address was
    obtained), and the registration table is left as it was. *)
Theorem undecodable_chunk_is_not_echoed s n b w :
  fileno w !! s = Some n ->
  os_recv os w s = Ok b ->
  b <> [] ->
  Codec.decode b = None ->
  let out := process_client_io os s w in
  (exists e, out.1 = Raise e)
  /\ (exists d, trace out.2 = trace w ++ d /\ existsb is_send d = false)
  /\ fd_to_key out.2 = fd_to_key w
  /\ (forall a, os_getpeername os (record (Recv s 1024 (Ok b)) w) s = Ok a ->
      out.1 = Raise UnicodeDecodeError).
Proof.
  intros Hs Hr Hb Hd. unfold process_client_io, bind.
  rewrite (sock_recv_live os s 1024 w n Hs), Hr.
  destruct b as [|b0 b]; [contradiction|].
  rewrite (getpeername_live os s _ n) by exact Hs.
  destruct (os_getpeername os _ s) as [a|e]; simpl.
  - unfold decode. rewrite Hd. simpl. repeat split; eauto.
    eexists. split; [rewrite <- app_assoc; reflexivity|reflexivity].
  - repeat split; eauto.
    + eexists. split; [rewrite <- app_assoc; reflexivity|reflexivity].
    + discriminate.
Qed.

End EchoCycle.

Section EchoPayload.
Variable os : os_model.

(** C1, as the code has it: a non-empty chunk [b] that is well-formed
    UTF-8, read from a connection whose peer address is known, is answered
    by one [sendall] of "Client=<peer-address>| Echo: " followed by the
    octets of [b] unchanged; nothing else is written in that cycle. *)
Theorem decodable_chunk_is_echoed s n b text a w :
  fileno w !! s = Some n ->
  os_recv os w s = Ok b ->
  b <> [] ->
  Codec.decode b = Some text ->
  (forall w', os_getpeername os w' s = Ok a) ->
  exists w1 r,
    let payload :=
      map Codec.byte_of
        (Codec.lit "Client=" ++ show_addr a ++ Codec.lit "| Echo: ") ++ b in
    process_client_io os s w = (r, record (SendAll s payload r) w1)
    /\ (exists d, trace w1 = trace w ++ Recv s 1024 (Ok b) :: d
                  /\ existsb is_send d = false)
    /\ r = os_sendall os w1 s payload.
Proof.
  intros Hs Hr Hb Hd Ha. unfold process_client_io, bind.
  rewrite (sock_recv_live os s 1024 w n Hs), Hr.
  destruct b as [|b0 b]; [contradiction|].
  rewrite (getpeername_live os s _ n), Ha by exact Hs.
  unfold decode. rewrite Hd. unfold ret, logger.info, emit.
  rewrite (getpeername_live os s _ n), Ha by exact Hs.
  unfold encode.
  rewrite (encode_label a text (b0 :: b) (decode_encode _ _ Hd)).
  cbv beta iota delta [ret].
  rewrite (sock_sendall_live os s _ _ n) by exact Hs.
  eexists _, _. split; [reflexivity|]. split; [|reflexivity].
  eexists. split; [simpl; rewrite <- !app_assoc; reflexivity|reflexivity].
Qed.

End EchoPayload.

(** The end-to-end scenario of the spec: "42" comes back labelled. *)
Lemma decodable_chunk_is_echoed_witness :
  exists w1 r,
    process_client_io (Demo.system (fun _ => Ok Demo.forty_two) (fun _ => Ok Demo.peer))
      1%nat Demo.serving
    = (r, record
            (SendAll 1%nat
               (map Codec.byte_of (Codec.lit "Client=('127.0.0.1', 54321)| Echo: 42"))
               r) w1).
Proof.
  destruct (decodable_chunk_is_echoed
              (Demo.system (fun _ => Ok Demo.forty_two) (fun _ => Ok Demo.peer))
              1%nat 5%Z Demo.forty_two [52; 50] Demo.peer Demo.serving)
    as (w1 & r & H & _); try reflexivity; [discriminate|].
  exists w1, r. exact H.
Defined.

(** C1 as the spec words it fails on a chunk that is not UTF-8: the single
    octet 0xFF is read, nothing is written back and the cycle raises. *)
Lemma undecodable_chunk_counterexample :
  let os := Demo.system (fun _ => Ok [xff]) (fun _ => Ok Demo.peer) in
  let out := process_client_io os 1%nat Demo.serving in
  os_recv os Demo.serving 1%nat = Ok [xff]
  /\ out.1 = Raise UnicodeDecodeError
  /\ existsb is_send (trace out.2) = false.
Proof. vm_compute. repeat split. Qed.


(** C10 on the octet 0xFF arriving on connection 1. *)
Lemma undecodable_chunk_is_not_echoed_witness :
  let os := Demo.system (fun _ => Ok [xff]) (fun _ => Ok Demo.peer) in
  let out := process_client_io os 1%nat Demo.serving in
  (exists e, out.1 = Raise e)
  /\ (exists d, trace out.2 = trace Demo.serving ++ d /\ existsb is_send d = false)
  /\ fd_to_key out.2 = fd_to_key Demo.serving
  /\ (forall a, os_getpeername os (record (Recv 1%nat 1024 (Ok [xff])) Demo.serving) 1%nat
                = Ok a ->
      out.1 = Raise UnicodeDecodeError).
Proof.
  apply (undecodable_chunk_is_not_echoed
           (Demo.system (fun _ => Ok [xff]) (fun _ => Ok Demo.peer))
           1%nat 5%Z [xff] Demo.serving); try reflexivity. discriminate.
Defined.

(** ** The close path *)

Section ClosePath.
Variable os : os_model.

(** What the [else] branch of [process_client_io] does when the peer
    address is still to be had and the socket is registered. *)
Lemma close_path s n a w :
  fileno w !! s = Some n ->
  is_Some (fd_to_key w !! n) ->
  os_recv os w s = Ok [] ->
  os_getpeername os (record (Recv s 1024 (Ok [])) w) s = Ok a ->
  exists w',
    process_client_io os s w = (Ok tt, w')
    /\ fd_to_key w' = delete n (fd_to_key w)
    /\ fileno w' = delete s (fileno w)
    /\ created w' = created w
    /\ trace w' = trace w ++
         [Recv s 1024 (Ok []); GetPeerName s (Ok a);
          Log INFO (Codec.lit "Closing connection to " ++ show_addr a);
          Unregister s n; Close s n].
Proof.
  intros Hs [k Hk] Hr Ha. unfold process_client_io, bind.
  rewrite (sock_recv_live os s 1024 w n Hs), Hr.
  rewrite (getpeername_live os s _ n), Ha by exact Hs.
  unfold logger.info, emit, selector.unregister, bind.
  rewrite (fileobj_lookup_live s _ n) by exact Hs.
  cbn [fd_to_key record]. rewrite Hk.
  unfold close. cbn [fileno record set_fd_to_key]. rewrite Hs.
  eexists. split; [reflexivity|]. cbn.
  repeat split. now rewrite <- !app_assoc.
Qed.

(** When the peer address cannot be had any more, the [else] branch stops
    at its log line: the exception leaves [process_client_io], and the
    socket stays registered and open. *)
Lemma close_path_peer_gone s n e w :
  fileno w !! s = Some n ->
  os_recv os w s = Ok [] ->
  os_getpeername os (record (Recv s 1024 (Ok [])) w) s = Raise e ->
  exists w',
    process_client_io os s w = (Raise e, w')
    /\ fd_to_key w' = fd_to_key w
    /\ fileno w' = fileno w.
Proof.
  intros Hs Hr Ha. unfold process_client_io, bind.
  rewrite (sock_recv_live os s 1024 w n Hs), Hr.
  rewrite (getpeername_live os s _ n), Ha by exact Hs.
  eexists. split; [reflexivity|]. now split.
Qed.

End ClosePath.

(** C6 at a failing input.  The peer of connection 1 is gone for good: its
    FIN was followed by a reset (as when a client closes before the echo
    reaches it), so that the read returns no bytes and [getpeername]
    raises ENOTCONN.  The close path stops at its log line: the exception
    leaves [process_client_io], nothing is unregistered or closed, and the
    socket stays registered and open. *)
Theorem close_path_raises_when_peer_gone :
  let os := Demo.system (fun _ => Ok []) (fun _ => Raise (OSError ENOTCONN)) in
  let out := process_client_io os 1%nat Demo.serving in
  os_recv os Demo.serving 1%nat = Ok []
  /\ out.1 = Raise (OSError ENOTCONN)
  /\ trace out.2
     = [Recv 1%nat 1024 (Ok []); GetPeerName 1%nat (Raise (OSError ENOTCONN))]
  /\ fd_to_key out.2 !! 5%Z = Some (Demo.connection_key 1 5)
  /\ fileno out.2 !! 1%nat = Some 5%Z.
Proof. vm_compute. repeat split. Qed.

(** ** Faults *)

Section Faults.
Variable os : os_model.

Lemma for_events_app ls pre evs w :
  for_events os ls (pre ++ evs) w
  = bind (for_events os ls pre) (fun _ => for_events os ls evs) w.
Proof.
  revert w. induction pre as [|k pre IH]; intros w; [reflexivity|].
  cbn [for_events app]. unfold bind.
  destruct (dispatch os ls k w) as [[[]|e] w1]; [|reflexivity].
  rewrite IH. reflexivity.
Qed.

(** A cycle that raises has changed neither the table nor the sockets. *)
Lemma process_client_io_raise s w e w' :
  process_client_io os s w = (Raise e, w') ->
  fd_to_key w' = fd_to_key w /\ fileno w' = fileno w.
Proof.
  unfold process_client_io, bind, sock_recv, getpeername, sock_sendall,
    on_open, decode, encode, logger.info, emit, ret, raise,
    selector.unregister, selector.fileobj_lookup, close, bind.
  intros H.
  repeat (case_match; simplify_eq; try done).
Qed.

End Faults.

(** C3 as the spec words it fails: connection 1 is reset by its peer while
    connection 2 and the listening socket are ready in the same batch.  The
    fault ends the loop after one poll out of the two it was followed for,
    connection 2 is never read, and connection 1 is still registered and
    open: nothing closed it. *)
Lemma fault_isolation_counterexample :
  let os := Demo.system Demo.reset_on_1 (fun _ => Ok Demo.peer) in
  let out := dispatch_loop os 2 0%nat Demo.serving in
  out.1 = Raise (OSError ECONNRESET)
  /\ trace out.2
     = [Select POLL_TIMEOUT
          [Demo.connection_key 1 5; Demo.listening_key; Demo.connection_key 2 6];
        Recv 1%nat 1024 (Raise (OSError ECONNRESET))]
  /\ fd_to_key out.2 !! 5%Z = Some (Demo.connection_key 1 5)
  /\ fileno out.2 !! 1%nat = Some 5%Z.
Proof. vm_compute. repeat split. Qed.

(** ** Registration errors *)

Lemma register_watched s n tag w :
  fileno w !! s = Some n ->
  is_Some (fd_to_key w !! n) ->
  selector.register s tag w = (Raise (KeyError AlreadyRegistered), w).
Proof.
  intros Hs [k Hk]. unfold selector.register, bind.
  now rewrite (fileobj_lookup_live s w n Hs), Hk.
Qed.

Lemma unregister_unwatched s n w :
  fileno w !! s = Some n ->
  fd_to_key w !! n = None ->
  selector.unregister s w = (Raise (KeyError NotRegistered), w).
Proof.
  intros Hs Hk. unfold selector.unregister, bind.
  now rewrite (fileobj_lookup_live s w n Hs), Hk.
Qed.

(** ** The invariant, one step at a time *)

Lemma obeys_snoc v t a :
  obeys v (t ++ [a])
  <-> obeys v t /\ allowed (fold_left after t v) a
      /\ registered_open (after (fold_left after t v) a).
Proof.
  revert v. induction t as [|b t IH]; intros v; simpl.
  - tauto.
  - rewrite IH. tauto.
Qed.

Lemma view_of_snoc t a : view_of (t ++ [a]) = after (view_of t) a.
Proof. unfold view_of. now rewrite fold_left_app. Qed.

Lemma tidy_registered_open w : tidy w -> registered_open (world_view w).
Proof.
  intros Hw n s. unfold world_view; cbn. rewrite lookup_fmap.
  destruct (fd_to_key w !! n) as [k|] eqn:Hk; [|discriminate].
  cbn. intros [= <-]. now apply (tidy_keys w Hw).
Qed.

Lemma watched_lookup w n s :
  watched (world_view w) !! n = Some s
  <-> exists k, fd_to_key w !! n = Some k /\ fileobj k = s.
Proof.
  unfold world_view; cbn. rewrite lookup_fmap.
  destruct (fd_to_key w !! n) as [k|]; cbn; split.
  - intros [= <-]. eauto.
  - now intros (k' & [= <-] & <-).
  - discriminate.
  - now intros (k' & ? & _).
Qed.

(** The entry of a descriptor held by an open socket is that socket's. *)
Lemma tidy_owner w s n k :
  tidy w -> fileno w !! s = Some n -> fd_to_key w !! n = Some k ->
  fileobj k = s.
Proof.
  intros Hw Hs Hk. destruct (tidy_keys w Hw n k Hk) as [_ Hk'].
  exact (tidy_inj w Hw _ _ _ Hk' Hs).
Qed.

Lemma registered_is_watched w s n :
  tidy w -> fileno w !! s = Some n -> is_Some (fd_to_key w !! n) ->
  is_watched (world_view w) s.
Proof.
  intros Hw Hs [k Hk]. exists n. split; [exact Hs|].
  apply watched_lookup. exists k. split; [exact Hk|].
  exact (tidy_owner w s n k Hw Hs Hk).
Qed.

Lemma consistent_step w w' a :
  consistent w ->
  trace w' = trace w ++ [a] ->
  tidy w' ->
  world_view w' = after (world_view w) a ->
  allowed (world_view w) a ->
  consistent w'.
Proof.
  intros [Ht Hv Hd] Htr Ht' Hv' Ha. split; [exact Ht'| |].
  - now rewrite Htr, view_of_snoc, Hv.
  - unfold disciplined in *. rewrite Htr. apply obeys_snoc.
    fold (view_of (trace w)). rewrite Hv, <- Hv'.
    auto using tidy_registered_open.
Qed.

(** An action that changes no table. *)
Lemma consistent_record w a :
  consistent w ->
  (forall v, after v a = v) ->
  allowed (world_view w) a ->
  consistent (record a w).
Proof.
  intros Hw Hafter Ha.
  apply (consistent_step w _ a Hw); [reflexivity| | |exact Ha].
  - destruct Hw as [[H1 H2 H3] _ _]. now split.
  - now rewrite Hafter.
Qed.

Lemma consistent_register w s n tag :
  consistent w -> fileno w !! s = Some n -> fd_to_key w !! n = None ->
  consistent
    (record (Register s n tag)
       (set_fd_to_key
          (<[n := {| fileobj := s; fd := n; events := EVENT_READ; data := tag |}]>
             (fd_to_key w)) w)).
Proof.
  intros Hw Hs Hn. apply (consistent_step w _ (Register s n tag) Hw).
  - reflexivity.
  - destruct Hw as [[H1 H2 H3] _ _]. split; cbn; auto.
    intros m k. rewrite lookup_insert. case_decide as Hm.
    + intros [= <-]. cbn. now subst.
    + apply H1.
  - unfold world_view; cbn. now rewrite fmap_insert.
  - cbn. split; [exact Hs|]. now rewrite lookup_fmap, Hn.
Qed.

Lemma consistent_unregister w s n :
  consistent w -> fileno w !! s = Some n -> is_Some (fd_to_key w !! n) ->
  consistent
    (record (Unregister s n) (set_fd_to_key (delete n (fd_to_key w)) w)).
Proof.
  intros Hw Hs Hn. apply (consistent_step w _ (Unregister s n) Hw).
  - reflexivity.
  - destruct Hw as [[H1 H2 H3] _ _]. split; cbn; auto.
    intros m k. rewrite lookup_delete. case_decide; [discriminate|apply H1].
  - unfold world_view; cbn. now rewrite fmap_delete.
  - cbn. destruct Hn as [k Hk]. apply watched_lookup. exists k.
    split; [exact Hk|]. exact (tidy_owner w s n k (consistent_tidy w Hw) Hs Hk).
Qed.

Lemma consistent_close w s n :
  consistent w -> fileno w !! s = Some n -> fd_to_key w !! n = None ->
  consistent (record (Close s n) (set_fileno (delete s (fileno w)) w)).
Proof.
  intros Hw Hs Hn. apply (consistent_step w _ (Close s n) Hw).
  - reflexivity.
  - destruct Hw as [[H1 H2 H3] _ _]. split; cbn.
    + intros m k Hk. destruct (H1 m k Hk) as [E Hf]. split; [exact E|].
      rewrite lookup_delete_ne; [exact Hf|].
      intros Es. rewrite <- Es, Hs in Hf. injection Hf as <-. congruence.
    + intros s1 s2 m. rewrite !lookup_delete. repeat case_decide; try discriminate.
      apply H2.
    + intros s1 m. rewrite lookup_delete. case_decide; [discriminate|apply H3].
  - reflexivity.
  - cbn. split; [exact Hs|]. now rewrite lookup_fmap, Hn.
Qed.

Lemma tidy_new_sock w n :
  tidy w -> (forall s, fileno w !! s <> Some n) -> tidy (new_sock n w).
Proof.
  intros [H1 H2 H3] Hn. split; cbn.
  - intros m k Hk. destruct (H1 m k Hk) as [E Hf]. split; [exact E|].
    rewrite lookup_insert_ne; [exact Hf|].
    intros Es. rewrite <- Es in Hf. apply H3 in Hf. lia.
  - intros s1 s2 m Hs1 Hs2. rewrite lookup_insert in Hs1, Hs2.
    repeat case_decide; simplify_eq; try done;
      try (exfalso; eapply Hn; eassumption); eauto.
  - intros s m. rewrite lookup_insert. case_decide; subst; [lia|].
    intros Hx. apply H3 in Hx. lia.
Qed.

Lemma tidy_record w a : tidy w -> tidy (record a w).
Proof. intros [H1 H2 H3]. now split. Qed.

Lemma consistent_socket w n :
  consistent w -> (forall s, fileno w !! s <> Some n) ->
  consistent (record (Socket (created w) n) (new_sock n w)).
Proof.
  intros Hw Hn. apply (consistent_step w _ (Socket (created w) n) Hw).
  - reflexivity.
  - apply tidy_record, (tidy_new_sock w n (consistent_tidy w Hw) Hn).
  - reflexivity.
  - cbn. split; [reflexivity|exact Hn].
Qed.

Lemma consistent_accept w l m n a :
  consistent w -> fileno w !! l = Some m -> is_Some (fd_to_key w !! m) ->
  (forall s, fileno w !! s <> Some n) ->
  consistent (record (Accept l (Ok (created w, n, a))) (new_sock n w)).
Proof.
  intros Hw Hl Hm Hn.
  apply (consistent_step w _ (Accept l (Ok (created w, n, a))) Hw).
  - reflexivity.
  - apply tidy_record, (tidy_new_sock w n (consistent_tidy w Hw) Hn).
  - reflexivity.
  - cbn. split; [|split; [reflexivity|exact Hn]].
    exact (registered_is_watched w l m (consistent_tidy w Hw) Hl Hm).
Qed.

(** ** The invariant through the handlers *)

Section Handlers.
Variable os : os_model.

Local Ltac tables :=
  cbn [fd_to_key fileno created trace record set_fd_to_key set_fileno new_sock].

Lemma process_client_io_consistent s n w :
  consistent w -> fileno w !! s = Some n -> is_Some (fd_to_key w !! n) ->
  consistent (process_client_io os s w).2
  /\ survive n s w (process_client_io os s w).2.
Proof.
  intros Hw Hs Hk.
  assert (Hwatch : is_watched (world_view w) s)
    by exact (registered_is_watched w s n (consistent_tidy w Hw) Hs Hk).
  assert (Hrecv : forall r, consistent (record (Recv s 1024 r) w))
    by (intros r; now apply consistent_record).
  assert (Hsame : survive n s w w) by (split; auto).
  unfold process_client_io, bind.
  rewrite (sock_recv_live os s 1024 w n Hs).
  destruct (os_recv os w s) as [[|b0 b]|e]; [| |now split; [apply Hrecv|]].
  - (* peer closed *)
    rewrite (getpeername_live os s _ n) by exact Hs.
    destruct (os_getpeername os _ s) as [a|e].
    2:{ split; [|exact Hsame]. now apply consistent_record. }
    unfold logger.info, emit.
    rewrite (unregister_live s n) by (exact Hs || exact Hk).
    rewrite (close_live s n) by exact Hs.
    cbn [fst snd]. split.
    + apply consistent_close; [|exact Hs|apply lookup_delete_eq].
      apply consistent_unregister; [|exact Hs|exact Hk].
      repeat (apply consistent_record; [|reflexivity|exact I]). apply Hrecv.
    + split; tables; intros; [now rewrite lookup_delete_ne by done|].
      now rewrite lookup_delete_ne by done.
  - (* a chunk arrived *)
    rewrite (getpeername_live os s _ n) by exact Hs.
    destruct (os_getpeername os _ s) as [a|e].
    2:{ split; [|exact Hsame]. now apply consistent_record. }
    unfold decode. destruct (Codec.decode (b0 :: b)) as [text|].
    2:{ split; [|exact Hsame]. now apply consistent_record. }
    unfold ret, raise, logger.info, emit.
    rewrite (getpeername_live os s _ n) by exact Hs.
    destruct (os_getpeername os _ s) as [a'|e].
    2:{ split; [|exact Hsame].
        repeat (apply consistent_record; [|reflexivity|exact I]). apply Hrecv. }
    unfold encode. destruct (Codec.encode _) as [payload|].
    2:{ split; [|exact Hsame].
        repeat (apply consistent_record; [|reflexivity|exact I]). apply Hrecv. }
    unfold ret, raise. rewrite (sock_sendall_live os s _ _ n) by exact Hs.
    split; [|exact Hsame].
    apply consistent_record; [|reflexivity|exact Hwatch].
    repeat (apply consistent_record; [|reflexivity|exact I]). apply Hrecv.
Qed.

Hypothesis os_sane : sane os.


Lemma accept_branch_consistent ls n w :
  consistent w -> fileno w !! ls = Some n -> is_Some (fd_to_key w !! n) ->
  consistent (accept_branch os ls w).2
  /\ (forall m s, survive m s w (accept_branch os ls w).2)
  /\ (forall m k, fd_to_key w !! m = Some k ->
      fd_to_key (accept_branch os ls w).2 !! m = Some k).
Proof.
  intros Hw Hl Hk.
  assert (Hsame : (forall m s, survive m s w w)
                  /\ (forall m k, fd_to_key w !! m = Some k ->
                                  fd_to_key w !! m = Some k))
    by (split; [split|]; auto).
  unfold accept_branch, accept_client, sock_accept, bind. rewrite Hl.
  destruct (os_accept os w ls) as [[c a]|e] eqn:Ha.
  2:{ split; [|exact Hsame]. apply consistent_record; [exact Hw|reflexivity|].
      split; [|exact I].
      exact (registered_is_watched w ls n (consistent_tidy w Hw) Hl Hk). }
  pose proof (sane_accept os os_sane w ls c a Ha) as Hfree.
  assert (Hacc : consistent (record (Accept ls (Ok (created w, c, a))) (new_sock c w)))
    by (now apply (consistent_accept w ls n c a)).
  assert (Hnew : fileno (new_sock c w) !! created w = Some c)
    by apply lookup_insert_eq.
  assert (Hnone : fd_to_key w !! c = None).
  { destruct (fd_to_key w !! c) as [k|] eqn:Hc; [|reflexivity].
    destruct (tidy_keys w (consistent_tidy w Hw) c k Hc) as [_ Hf].
    now apply Hfree in Hf. }
  assert (Hgrow : (forall m s, survive m s w
                     (record (Register (created w) c "data_received")
                        (set_fd_to_key
                           (<[c := {| fileobj := created w; fd := c;
                                      events := EVENT_READ;
                                      data := "data_received" |}]>
                              (fd_to_key (new_sock c w))) (new_sock c w))))
                  /\ (forall m k, fd_to_key w !! m = Some k ->
                      <[c := {| fileobj := created w; fd := c;
                                events := EVENT_READ;
                                data := "data_received" |}]>
                        (fd_to_key w) !! m = Some k)).
  { assert (Hkeep : forall m k, fd_to_key w !! m = Some k ->
                      <[c := {| fileobj := created w; fd := c;
                                events := EVENT_READ;
                                data := "data_received" |}]>
                        (fd_to_key w) !! m = Some k).
    { intros m k Hm. rewrite lookup_insert_ne; [exact Hm|]. congruence. }
    split; [|exact Hkeep]. intros m s. split; tables.
    - intros m' k _. apply Hkeep.
    - intros s' m' _ Hs'. rewrite lookup_insert_ne; [exact Hs'|].
      intros <-. apply (tidy_made w (consistent_tidy w Hw)) in Hs'. lia. }
  unfold setblocking, emit.
  rewrite (register_live (created w) c) by (exact Hnew || exact Hnone).
  unfold ret.
  rewrite (getpeername_live os (created w) _ c) by exact Hnew.
  assert (Hreg : consistent
            (record (Register (created w) c "data_received")
               (set_fd_to_key
                  (<[c := {| fileobj := created w; fd := c;
                             events := EVENT_READ; data := "data_received" |}]>
                     (fd_to_key
                        (record (SetBlocking (created w))
                           (record (Accept ls (Ok (created w, c, a)))
                              (new_sock c w)))))
                  (record (SetBlocking (created w))
                     (record (Accept ls (Ok (created w, c, a)))
                        (new_sock c w)))))).
  { apply consistent_register; [|exact Hnew|exact Hnone].
    now apply consistent_record. }
  destruct (os_getpeername os _ (created w)) as [name|e]; cbn [fst snd].
  - split; [|exact Hgrow]. unfold logger.info, emit.
    now repeat (apply consistent_record; [|reflexivity|exact I]).
  - split; [|exact Hgrow]. now apply consistent_record.
Qed.

Lemma dispatch_consistent ls k rest w :
  consistent w -> listening ls w -> batch_ok (k :: rest) w ->
  consistent (dispatch os ls k w).2
  /\ listening ls (dispatch os ls k w).2
  /\ batch_ok rest (dispatch os ls k w).2.
Proof.
  intros Hw (nl & kl & Hl & Hkl & Htag) [Hnd Hin].
  apply NoDup_cons in Hnd as [Hk Hnd].
  assert (Hmine : fd_to_key w !! fd k = Some k) by (apply Hin; left).
  unfold dispatch.
  destruct (String.eqb_spec (data k) "client_connected") as [E1|E1].
  - destruct (accept_branch_consistent ls nl w Hw Hl (ex_intro _ kl Hkl))
      as (Hc & Hsurv & Hgrow).
    split; [exact Hc|]. split.
    + exists nl, kl. destruct (Hsurv nl (S ls)) as [_ Hf].
      split; [apply Hf; [lia|exact Hl]|]. split; [now apply Hgrow|exact Htag].
    + split; [exact Hnd|]. intros k' Hk'. apply Hgrow, Hin. now right.
  - destruct (String.eqb_spec (data k) "data_received") as [E2|E2].
    + destruct (tidy_keys w (consistent_tidy w Hw) _ _ Hmine) as [_ Hs].
      destruct (process_client_io_consistent (fileobj k) (fd k) w Hw Hs
                  (ex_intro _ k Hmine)) as (Hc & Htab & Hsock).
      split; [exact Hc|]. split.
      * exists nl, kl. split; [|split; [|exact Htag]].
        -- apply Hsock; [|exact Hl]. intros Els. rewrite Els, Hs in Hl.
           injection Hl as Enl. rewrite <- Enl in Hkl. congruence.
        -- apply Htab; [|exact Hkl]. intros Enl. rewrite Enl in Hkl.
           congruence.
      * split; [exact Hnd|]. intros k' Hk'. apply Htab; [|apply Hin; now right].
        intros E. apply Hk. rewrite <- E. now apply list_elem_of_fmap_2.
    + cbn [snd]. split; [now apply consistent_record|]. split.
      * now exists nl, kl.
      * split; [exact Hnd|]. intros k' Hk'. apply Hin. now right.
Qed.

Lemma for_events_consistent ls evs w :
  consistent w -> listening ls w -> batch_ok evs w ->
  consistent (for_events os ls evs w).2
  /\ listening ls (for_events os ls evs w).2.
Proof.
  revert w. induction evs as [|k rest IH]; intros w Hw Hl Hb; [now split|].
  cbn [for_events]. unfold bind.
  destruct (dispatch_consistent ls k rest w Hw Hl Hb) as (Hc & Hl' & Hb').
  destruct (dispatch os ls k w) as [[[]|e] w1]; cbn [snd] in *.
  - now apply IH.
  - now split.
Qed.

Lemma ready_keys (t : gmap Z SelectorKey) (ready : list Z) :
  (forall n k, t !! n = Some k -> fd k = n) ->
  NoDup ready ->
  NoDup (fd <$> omap (fun n => t !! n) ready)
  /\ forall k, k ∈ omap (fun n => t !! n) ready -> t !! fd k = Some k.
Proof.
  intros Hfd Hnd. split.
  - induction Hnd as [|n ready Hn Hnd IH]; cbn; [constructor|].
    destruct (t !! n) as [k|] eqn:Hk; [|exact IH].
    cbn. constructor; [|exact IH].
    rewrite (Hfd n k Hk). intros Hin. apply list_elem_of_fmap in Hin.
    destruct Hin as (k' & E & Hin). apply list_elem_of_omap in Hin.
    destruct Hin as (m & Hm & Hk'). rewrite (Hfd m k' Hk') in E. now subst.
  - intros k Hin. apply list_elem_of_omap in Hin.
    destruct Hin as (m & _ & Hk). now rewrite (Hfd m k Hk).
Qed.

Lemma select_consistent timeout w :
  consistent w ->
  consistent (select os timeout w).2
  /\ fd_to_key (select os timeout w).2 = fd_to_key w
  /\ fileno (select os timeout w).2 = fileno w
  /\ forall evs, (select os timeout w).1 = Ok evs ->
                 batch_ok evs (select os timeout w).2.
Proof.
  intros Hw. unfold select.
  destruct (os_epoll os w) as [ready|e] eqn:Hr; cbn [fst snd].
  - split; [now apply consistent_record|]. do 2 (split; [reflexivity|]).
    intros evs [= <-]. apply ready_keys.
    + intros n k Hk. now apply (tidy_keys w (consistent_tidy w Hw)).
    + exact (sane_epoll os os_sane w ready Hr).
  - split; [exact Hw|]. do 2 (split; [reflexivity|]). discriminate.
Qed.

Lemma dispatch_loop_consistent polls ls w :
  consistent w -> listening ls w ->
  consistent (dispatch_loop os polls ls w).2.
Proof.
  revert w. induction polls as [|polls IH]; intros w Hw Hl; [exact Hw|].
  cbn [dispatch_loop]. unfold bind.
  destruct (select_consistent POLL_TIMEOUT w Hw) as (Hc & Ht & Hf & Hb).
  destruct (select os POLL_TIMEOUT w) as [[evs|e] w1]; cbn [fst snd] in *;
    [|exact Hc].
  assert (Hl1 : listening ls w1).
  { destruct Hl as (n & k & H1 & H2 & H3). exists n, k. now rewrite Hf, Ht. }
  destruct (for_events_consistent ls evs w1 Hc Hl1 (Hb evs eq_refl)) as [Hc2 Hl2].
  destruct (for_events os ls evs w1) as [[[]|e] w2]; cbn [snd] in *.
  - now apply IH.
  - exact Hc2.
Qed.

Lemma unregister_closed s w :
  tidy w -> fileno w !! s = None ->
  selector.unregister s w = (Raise ValueError, w).
Proof.
  intros Hw Hs. unfold selector.unregister, selector.fileobj_lookup, bind.
  rewrite Hs.
  destruct (find _ _) as [[n k]|] eqn:Hfind; [|reflexivity].
  apply find_some in Hfind as [Hin Heq]. cbn in Heq.
  apply Nat.eqb_eq in Heq. apply list_elem_of_In, elem_of_map_to_list in Hin.
  destruct (tidy_keys w Hw n k Hin) as [_ Hf]. congruence.
Qed.

Lemma server_socket_exit_consistent ls w :
  consistent w -> consistent (server_socket_exit ls w).2.
Proof.
  intros Hw. unfold server_socket_exit, bind.
  destruct (fileno w !! ls) as [n|] eqn:Hl.
  - destruct (fd_to_key w !! n) as [k|] eqn:Hk.
    + rewrite (unregister_live ls n w Hl (ex_intro _ k Hk)).
      rewrite (close_live ls n) by exact Hl. cbn [snd].
      apply consistent_close; [|exact Hl|apply lookup_delete_eq].
      apply consistent_unregister; eauto.
    + now rewrite (unregister_unwatched ls n w Hl Hk).
  - now rewrite (unregister_closed ls w (consistent_tidy w Hw) Hl).
Qed.

Lemma server_socket_enter_consistent h p w :
  consistent w ->
  consistent (server_socket_enter os h p w).2
  /\ forall ls, (server_socket_enter os h p w).1 = Ok ls ->
                listening ls (server_socket_enter os h p w).2.
Proof.
  intros Hw. unfold server_socket_enter, socket, bind.
  destruct (os_socket os w) as [n|e] eqn:Hn; [|now split].
  pose proof (sane_socket os os_sane w n Hn) as Hfree.
  assert (Hnew : fileno (new_sock n w) !! created w = Some n)
    by apply lookup_insert_eq.
  assert (Hnone : fd_to_key w !! n = None).
  { destruct (fd_to_key w !! n) as [k|] eqn:Hc; [|reflexivity].
    destruct (tidy_keys w (consistent_tidy w Hw) n k Hc) as [_ Hf].
    now apply Hfree in Hf. }
  unfold setsockopt, emit, bind_addr.
  rewrite (on_open_live (created w) _ _ _ n) by exact Hnew.
  assert (Hb : forall r,
             consistent
               (record (Bind (created w) {| host := h; port := p |} r)
                  (record (SetSockOpt (created w))
                     (record (Socket (created w) n) (new_sock n w))))).
  { intros r. do 2 (apply consistent_record; [|reflexivity|exact I]).
    now apply consistent_socket. }
  destruct (os_bind os _ (created w)) as [[]|e]; [|split; [apply Hb|discriminate]].
  unfold setblocking, emit.
  rewrite (register_live (created w) n) by (exact Hnew || exact Hnone).
  unfold ret. cbn [fst snd]. split.
  - apply consistent_register; [|exact Hnew|exact Hnone].
    apply consistent_record; [apply Hb|reflexivity|exact I].
  - intros ls [= <-]. eexists n, _. split; [exact Hnew|].
    split; [apply lookup_insert_eq|reflexivity].
Qed.

Lemma main_consistent polls : consistent (main os polls start).2.
Proof.
  assert (H0 : consistent start).
  { split; [split; intros *; rewrite ?lookup_empty; discriminate|reflexivity|].
    intros n s. cbn. rewrite lookup_empty. discriminate. }
  unfold main, bind at 1.
  destruct (server_socket_enter_consistent HOST PORT start H0) as [Hc Hl].
  destruct (server_socket_enter os HOST PORT start) as [[ls|e] w1];
    cbn [fst snd] in *; [|exact Hc].
  specialize (Hl ls eq_refl).
  unfold with_server_socket, bind, logger.info, listen, emit.
  set (w2 := record (Listen ls) (record (Log INFO _) w1)).
  assert (Hc2 : consistent w2)
    by (do 2 (apply consistent_record; [|reflexivity|exact I]); exact Hc).
  assert (Hl2 : listening ls w2) by exact Hl.
  pose proof (dispatch_loop_consistent polls ls w2 Hc2 Hl2) as Hc3.
  destruct (dispatch_loop os polls ls w2) as [[[]|e] w3]; cbn [snd] in *;
    [exact Hc3|].
  unfold finally, raise.
  pose proof (server_socket_exit_consistent ls w3 Hc3) as Hc4.
  now destruct (server_socket_exit ls w3) as [[[]|e'] w4].
Qed.

End Handlers.

(** ** A system that behaves *)

Lemma le_foldr_max (n b : Z) (l : list Z) : n ∈ l -> (n <= foldr Z.max b l)%Z.
Proof.
  induction l as [|m l IH]; cbn; [now intros ?%elem_of_nil|].
  intros [->|Hin]%elem_of_cons; [lia|]. specialize (IH Hin). lia.
Qed.

Lemma next_fd_unused w s : fileno w !! s <> Some (Demo.next_fd w).
Proof.
  intros Hs. unfold Demo.next_fd in Hs.
  assert (Hin : Z.succ (foldr Z.max 2%Z (map_to_list (fileno w)).*2)
                ∈ (map_to_list (fileno w)).*2).
  { apply list_elem_of_fmap. eexists (s, _). split; [reflexivity|].
    now apply elem_of_map_to_list. }
  apply (le_foldr_max _ 2%Z) in Hin. lia.
Qed.

Lemma system_sane chunk peername : sane (Demo.system chunk peername).
Proof.
  split; cbn.
  - intros w n [= <-]. apply next_fd_unused.
  - intros w l n a [= <- _]. apply next_fd_unused.
  - intros w ready [= <-]. apply NoDup_fst_map_to_list.
Qed.

(** ** Registrations and open sockets *)

(** C4: from the start of [main] on, whatever the peers do and as long as
    the system gives a new socket an unused descriptor and reports a ready
    descriptor once per poll, the state is [consistent] after any number of
    polls: every entry of the table sits at the descriptor of an open
    socket, one entry per descriptor, and the trace kept to the discipline
    at every instant, so that no accept, read or write was made on a socket
    that was not registered at that moment, nothing was registered twice,
    and nothing was closed while registered. *)
Theorem registrations_stay_within_open_sockets os polls :
  sane os ->
  let w := (main os polls start).2 in
  consistent w
  /\ registered_open (world_view w)
  /\ disciplined (trace w).
Proof.
  intros Hos w. pose proof (main_consistent os Hos polls) as Hc.
  split; [exact Hc|]. split.
  - apply tidy_registered_open, Hc.
  - apply Hc.
Qed.

Lemma registrations_stay_within_open_sockets_witness :
  let os := Demo.system (fun _ => Ok Demo.forty_two) (fun _ => Ok Demo.peer) in
  let w := (main os 3 start).2 in
  consistent w /\ registered_open (world_view w) /\ disciplined (trace w).
Proof.
  apply (registrations_stay_within_open_sockets
           (Demo.system (fun _ => Ok Demo.forty_two) (fun _ => Ok Demo.peer))
           3 (system_sane _ _)).
Defined.

(** ** After a socket was closed *)


Lemma numbered_after v a : numbered v -> allowed v a -> numbered (after v a).
Proof.
  intros Hv Ha s n.
  destruct a as [| |? | | | | | | |l [[[s' n'] a']|e]| | | |]; cbn; try apply Hv.
  - destruct Ha as [-> _]. rewrite lookup_insert. case_decide; subst; [lia|].
    intros Hs. apply Hv in Hs. lia.
  - destruct Ha as [_ [-> _]]. rewrite lookup_insert. case_decide; subst; [lia|].
    intros Hs. apply Hv in Hs. lia.
  - rewrite lookup_delete. case_decide; [discriminate|apply Hv].
Qed.

(** A socket that is closed, and whose number is used up, is left alone by
    a trace that keeps to the discipline. *)
Lemma closed_socket_is_left_alone t : forall v s,
  obeys v t -> live v !! s = None -> (s < made v)%nat ->
  Forall (fun a => io_on a <> Some s) t.
Proof.
  induction t as [|a t IH]; intros v s Ht Hs Hm; [constructor|].
  destruct Ht as (_ & Ha & Ht). constructor.
  - destruct a; cbn; try discriminate; intros [= ->];
      destruct Ha as (n & Hn & _); congruence.
  - apply (IH (after v a) s Ht).
    + destruct a as [| |? | | | | | | |l [[[s' n'] a']|e]| | | |]; cbn; try exact Hs.
      * destruct Ha as [-> _]. rewrite lookup_insert_ne; [exact Hs|lia].
      * destruct Ha as [_ [-> _]]. rewrite lookup_insert_ne; [exact Hs|lia].
      * rewrite lookup_delete. now case_decide.
    + destruct a as [| |? | | | | | | |l [[[s' n'] a']|e]| | | |]; cbn; lia.
Qed.

Lemma obeys_silent_after_close t : forall v,
  numbered v -> obeys v t -> silent_after_close t.
Proof.
  induction t as [|a t IH]; intros v Hv Ht; [exact I|].
  destruct Ht as (_ & Ha & Ht).
  pose proof (IH (after v a) (numbered_after v a Hv Ha) Ht) as Hrest.
  destruct a; try exact Hrest. cbn. split; [|exact Hrest].
  destruct Ha as [Hs _].
  apply (closed_socket_is_left_alone t _ s Ht).
  - cbn. apply lookup_delete_eq.
  - cbn. exact (Hv _ _ Hs).
Qed.



(** ** Unregister, then close *)


Lemma close_follows_unregister_snoc prev t a :
  close_follows_unregister prev (t ++ [a])
  <-> close_follows_unregister prev t
      /\ match a with
         | Close s n => last_or prev t = Some (Unregister s n)
         | _ => True
         end.
Proof.
  revert prev. induction t as [|b t IH]; intros prev.
  - cbn. tauto.
  - cbn [app close_follows_unregister]. rewrite IH.
    assert (E : last_or (Some b) t = last_or prev (b :: t)).
    { unfold last_or. destruct t as [|c t]; [reflexivity|].
      change (last (b :: c :: t)) with (last (c :: t)).
      destruct (last (c :: t)) eqn:El; [reflexivity|].
      now apply last_None in El. }
    rewrite E. tauto.
Qed.


Lemma orderly_plain a w : orderly w -> is_close a = false -> orderly (record a w).
Proof.
  unfold orderly. cbn. intros Hw Ha. apply close_follows_unregister_snoc.
  split; [exact Hw|]. now destruct a.
Qed.

Lemma orderly_close s n w :
  orderly w -> last (trace w) = Some (Unregister s n) ->
  orderly (record (Close s n) w).
Proof.
  unfold orderly. cbn. intros Hw Hl. apply close_follows_unregister_snoc.
  split; [exact Hw|]. unfold last_or. now rewrite Hl.
Qed.

Ltac tables :=
  cbn [fd_to_key fileno created trace record set_fd_to_key set_fileno new_sock
       fst snd] in *.

Ltac crunch :=
  unfold process_client_io, accept_client, server_socket_enter,
    server_socket_exit, select, socket, setsockopt, setblocking, listen,
    bind_addr, sock_accept, sock_recv, sock_sendall, getpeername, on_open,
    decode, encode, logger.info, logger.error, emit, ret, raise,
    selector.register, selector.unregister, selector.fileobj_lookup, close,
    bind in *;
  repeat first [progress tables | case_match | progress simplify_eq].

Ltac orderly_leaf :=
  repeat lazymatch goal with
         | |- orderly (record (Close _ _) _) =>
           apply orderly_close; [|tables; apply last_snoc]
         | |- orderly (record _ _) => apply orderly_plain; [|reflexivity]
         | |- orderly (set_fd_to_key _ ?w) => change (orderly w)
         | |- orderly (set_fileno _ ?w) => change (orderly w)
         | |- orderly (new_sock _ ?w) => change (orderly w)
         end;
  try assumption.

Section Orderly.
Variable os : os_model.

Lemma process_client_io_orderly s w :
  orderly w -> orderly (process_client_io os s w).2.
Proof. intros Hw. crunch; orderly_leaf. Qed.

Lemma dispatch_orderly ls k w : orderly w -> orderly (dispatch os ls k w).2.
Proof.
  intros Hw. unfold dispatch.
  destruct (String.eqb (data k) "client_connected").
  - crunch; orderly_leaf.
  - destruct (String.eqb (data k) "data_received").
    + now apply process_client_io_orderly.
    + crunch; orderly_leaf.
Qed.

Lemma for_events_orderly ls evs w :
  orderly w -> orderly (for_events os ls evs w).2.
Proof.
  revert w. induction evs as [|k rest IH]; intros w Hw; [exact Hw|].
  cbn [for_events]. unfold bind.
  pose proof (dispatch_orderly ls k w Hw) as Hk.
  destruct (dispatch os ls k w) as [[[]|e] w1]; cbn [snd] in *; auto.
Qed.

Lemma dispatch_loop_orderly polls ls w :
  orderly w -> orderly (dispatch_loop os polls ls w).2.
Proof.
  revert w. induction polls as [|polls IH]; intros w Hw; [exact Hw|].
  cbn [dispatch_loop]. unfold bind at 1.
  assert (Hs : orderly (select os POLL_TIMEOUT w).2) by (crunch; orderly_leaf).
  destruct (select os POLL_TIMEOUT w) as [[evs|e] w1]; cbn [snd] in *; [|exact Hs].
  unfold bind. pose proof (for_events_orderly ls evs w1 Hs) as Hf.
  destruct (for_events os ls evs w1) as [[[]|e] w2]; cbn [snd] in *; auto.
Qed.

Lemma server_socket_exit_orderly ls w :
  orderly w -> orderly (server_socket_exit ls w).2.
Proof. intros Hw. crunch; orderly_leaf. Qed.

Lemma main_orderly polls : orderly (main os polls start).2.
Proof.
  assert (H0 : orderly start) by exact I.
  unfold main, bind at 1.
  assert (He : orderly (server_socket_enter os HOST PORT start).2)
    by (crunch; orderly_leaf).
  destruct (server_socket_enter os HOST PORT start) as [[ls|e] w1];
    cbn [snd] in *; [|exact He].
  unfold with_server_socket, bind, logger.info, listen, emit.
  set (w2 := record (Listen ls) (record (Log INFO _) w1)).
  assert (H2 : orderly w2) by (subst w2; orderly_leaf).
  pose proof (dispatch_loop_orderly polls ls w2 H2) as H3.
  destruct (dispatch_loop os polls ls w2) as [[[]|e] w3]; cbn [snd] in *;
    [exact H3|].
  unfold finally, raise.
  pose proof (server_socket_exit_orderly ls w3 H3) as H4.
  now destruct (server_socket_exit ls w3) as [[[]|e'] w4].
Qed.

End Orderly.

(** What the walk says, prefix by prefix. *)
Lemma close_follows_unregister_at t p s n q :
  close_follows_unregister None t ->
  t = p ++ Close s n :: q ->
  (exists p', p = p' ++ [Unregister s n])
  /\ watched (view_of p) !! n = None.
Proof.
  intros Ht ->.
  assert (Hp : close_follows_unregister None (p ++ [Close s n])).
  { revert Ht. generalize (@None action).
    induction p as [|b p IH]; intros prev; cbn.
    - tauto.
    - intros [H1 H2]. split; [exact H1|]. now apply IH. }
  apply close_follows_unregister_snoc in Hp as [_ Hl].
  unfold last_or in Hl. destruct (last p) as [a|] eqn:El; [|discriminate].
  injection Hl as ->. apply last_Some in El as [p' ->].
  split; [now exists p'|].
  rewrite view_of_snoc. cbn. apply lookup_delete_eq.
Qed.

(** C7: in every run of [main], for the listening socket as for every
    connection, the release of a descriptor comes right after the
    [unregister] of the same socket and descriptor; at the moment of the
    [close] the descriptor has no entry in the table. *)
Theorem close_comes_after_unregister os polls p s n q :
  trace (main os polls start).2 = p ++ Close s n :: q ->
  (exists p', p = p' ++ [Unregister s n])
  /\ watched (view_of p) !! n = None.
Proof.
  apply close_follows_unregister_at. apply main_orderly.
Qed.

Lemma close_comes_after_unregister_witness :
  let os := Demo.system (fun _ => Ok []) (fun _ => Ok Demo.peer) in
  let t := trace (main os 2 start).2 in
  t = take 25 t ++ Close 1%nat 4%Z :: []
  /\ (exists p', take 25 t = p' ++ [Unregister 1%nat 4%Z])
  /\ watched (view_of (take 25 t)) !! 4%Z = None.
Proof.
  intros os t.
  assert (E : t = take 25 t ++ Close 1%nat 4%Z :: [])
    by (vm_compute; reflexivity).
  split; [exact E|].
  exact (close_comes_after_unregister os 2 _ _ _ _ E).
Defined.

(** ** The order of handling *)

Lemma in_batch_order_app ls d1 : forall pending d2,
  in_batch_order ls pending (d1 ++ d2)
  = match in_batch_order ls pending d1 with
    | Some rest => in_batch_order ls rest d2
    | None => None
    end.
Proof.
  induction d1 as [|a d1 IH]; intros pending d2; [reflexivity|].
  destruct a; cbn; try apply IH.
  - destruct l; cbn; [apply IH|]. destruct pending as [|k rest]; [reflexivity|].
    destruct (_ && _); [apply IH|reflexivity].
  - destruct pending; [|reflexivity]. destruct timeout; [apply IH|reflexivity].
  - destruct pending as [|k rest]; [reflexivity|].
    destruct (_ && _); [apply IH|reflexivity].
  - destruct pending as [|k rest]; [reflexivity|].
    destruct (_ && _); [apply IH|reflexivity].
Qed.

(** Actions inside a handling leave the entries in line as they are. *)
Lemma in_batch_order_inner ls d : forall pending,
  forallb is_inner d = true -> in_batch_order ls pending d = Some pending.
Proof.
  induction d as [|a d IH]; intros pending; [reflexivity|].
  cbn [forallb]. intros [Ha Hd]%andb_true_iff.
  destruct a as [[] ?| | | | | | | | | | | | |]; cbn in *;
    try discriminate; now apply IH.
Qed.

Ltac delta_leaf :=
  tables; rewrite <- ?app_assoc; cbn [app];
  repeat eexists; first [reflexivity | rewrite app_nil_r; reflexivity].

Section Order.
Variable os : os_model.

Lemma process_client_io_delta s w :
  exists r d,
    trace (process_client_io os s w).2 = trace w ++ Recv s 1024 r :: d
    /\ forallb is_inner d = true.
Proof. crunch; delta_leaf. Qed.

Lemma accept_delta ls w :
  exists r d,
    trace (accept_branch os ls w).2 = trace w ++ Accept ls r :: d
    /\ forallb is_inner d = true.
Proof. unfold accept_branch. crunch; delta_leaf. Qed.

Lemma dispatch_in_order ls k rest w :
  exists d,
    trace (dispatch os ls k w).2 = trace w ++ d
    /\ in_batch_order ls (k :: rest) d = Some rest.
Proof.
  unfold dispatch.
  destruct (String.eqb (data k) "client_connected") eqn:E1.
  - change (exists d, trace (accept_branch os ls w).2 = trace w ++ d
                      /\ in_batch_order ls (k :: rest) d = Some rest).
    destruct (accept_delta ls w) as (r & d & -> & Hd).
    eexists. split; [reflexivity|]. cbn. rewrite E1, Nat.eqb_refl. cbn.
    now apply in_batch_order_inner.
  - destruct (String.eqb (data k) "data_received") eqn:E2.
    + destruct (process_client_io_delta (fileobj k) w) as (r & d & -> & Hd).
      eexists. split; [reflexivity|]. cbn. rewrite E1, E2, Nat.eqb_refl. cbn.
      now apply in_batch_order_inner.
    + eexists. split; [reflexivity|]. cbn. rewrite E1, E2. cbn.
      now rewrite bool_decide_eq_true_2.
Qed.

Lemma for_events_in_order ls evs : forall w,
  exists d left,
    trace (for_events os ls evs w).2 = trace w ++ d
    /\ in_batch_order ls evs d = Some left
    /\ ((for_events os ls evs w).1 = Ok tt -> left = []).
Proof.
  induction evs as [|k rest IH]; intros w.
  - exists [], []. cbn. now rewrite app_nil_r.
  - cbn [for_events]. unfold bind.
    destruct (dispatch_in_order ls k rest w) as (d1 & Ht & Hd).
    destruct (dispatch os ls k w) as [[[]|e] w1]; cbn [fst snd] in *.
    + destruct (IH w1) as (d2 & left & Ht2 & Hd2 & Hok).
      exists (d1 ++ d2), left. rewrite Ht2, Ht, <- app_assoc.
      split; [reflexivity|]. split; [|exact Hok].
      now rewrite in_batch_order_app, Hd.
    + exists d1, rest. split; [exact Ht|]. split; [exact Hd|discriminate].
Qed.

Lemma dispatch_loop_step polls ls w :
  dispatch_loop os (S polls) ls w
  = match select os POLL_TIMEOUT w with
    | (Ok evs, w1) =>
      match for_events os ls evs w1 with
      | (Ok _, w2) => dispatch_loop os polls ls w2
      | (Raise e, w2) => (Raise e, w2)
      end
    | (Raise e, w1) => (Raise e, w1)
    end.
Proof. reflexivity. Qed.

Lemma select_outcome timeout w :
  (exists e, select os timeout w = (Raise e, w))
  \/ (exists evs, select os timeout w = (Ok evs, record (Select timeout evs) w)).
Proof. unfold select. destruct (os_epoll os w); eauto. Qed.

Lemma dispatch_loop_in_order polls ls : forall w,
  exists d left,
    trace (dispatch_loop os polls ls w).2 = trace w ++ d
    /\ in_batch_order ls [] d = Some left
    /\ ((dispatch_loop os polls ls w).1 = Ok tt -> left = []).
Proof.
  induction polls as [|polls IH]; intros w.
  - exists [], []. cbn. now rewrite app_nil_r.
  - rewrite dispatch_loop_step.
    destruct (select_outcome POLL_TIMEOUT w) as [[e ->]|[evs ->]].
    { exists [], []. cbn. rewrite app_nil_r. repeat split; discriminate. }
    destruct (for_events_in_order ls evs (record (Select POLL_TIMEOUT evs) w))
      as (d1 & left1 & Ht1 & Hd1 & Hok1).
    destruct (for_events os ls evs _) as [[[]|e] w2]; cbn [fst snd] in *.
    + destruct (IH w2) as (d2 & left & Ht2 & Hd2 & Hok).
      exists (Select POLL_TIMEOUT evs :: d1 ++ d2), left.
      rewrite Ht2, Ht1. cbn [trace record].
      rewrite <- !app_assoc. split; [reflexivity|]. split; [|exact Hok].
      cbn. now rewrite in_batch_order_app, Hd1, (Hok1 eq_refl).
    + exists (Select POLL_TIMEOUT evs :: d1), left1.
      rewrite Ht1. cbn [trace record]. rewrite <- !app_assoc.
      split; [reflexivity|]. split; [exact Hd1|discriminate].
Qed.

End Order.

(** The walk refuses a trace that handles the second entry first, one that
    polls again with an entry left over, and one that waits forever. *)
Example out_of_order_is_refused :
  in_batch_order 0%nat []
    [Select POLL_TIMEOUT [Demo.connection_key 1 5; Demo.connection_key 2 6];
     Recv 2%nat 1024 (Ok []); Recv 1%nat 1024 (Ok [])] = None
  /\ in_batch_order 0%nat []
       [Select POLL_TIMEOUT [Demo.connection_key 1 5; Demo.connection_key 2 6];
        Recv 1%nat 1024 (Ok []); Select POLL_TIMEOUT []] = None
  /\ in_batch_order 0%nat [] [Select None []] = None.
Proof. repeat split. Qed.

(** C9: the actions of any number of rounds of the dispatch loop, started
    in any state, pass the walk [in_batch_order]: every poll is made with
    a finite timeout (the 0.1 s of [POLL_TIMEOUT]) and only when the batch
    before it was handled to its end, and within a batch the entries are
    handled one after the other in the order the poll delivered them.
    While the loop is running (no exception), no entry is left over. *)
Theorem batch_is_handled_in_order os polls ls w :
  POLL_TIMEOUT = Some (Qmake 1 10)
  /\ exists d left,
       trace (dispatch_loop os polls ls w).2 = trace w ++ d
       /\ in_batch_order ls [] d = Some left
       /\ ((dispatch_loop os polls ls w).1 = Ok tt -> left = []).
Proof. split; [reflexivity|apply dispatch_loop_in_order]. Qed.

(** Two rounds on the server with two connections sending "42". *)
Example two_rounds_in_order :
  let os := Demo.system (fun _ => Ok Demo.forty_two) (fun _ => Ok Demo.peer) in
  in_batch_order 0%nat [] (trace (dispatch_loop os 2 0%nat Demo.serving).2)
  = Some [].
Proof. vm_compute. reflexivity. Qed.

(** * Further properties of the server *)

Ltac concern_leaf :=
  tables; rewrite <- ?app_assoc; cbn [app];
  eexists; split; [first [reflexivity | rewrite app_nil_r; reflexivity]|];
  cbn; rewrite ?Nat.eqb_refl; reflexivity.

Section OneConnection.
Variable os : os_model.

(** X1: an echo cycle is the business of one socket.  Whatever the peers
    and the system do, [process_client_io] on socket [s] leaves every
    other socket as it was, leaves every table entry as it was except the
    one at the descriptor of [s], makes no new socket, and every call it
    makes on a socket is a call on [s]. *)
Theorem process_client_io_touches_only_its_socket s w :
  let w' := (process_client_io os s w).2 in
  (forall s', s' <> s -> fileno w' !! s' = fileno w !! s')
  /\ (forall m, fileno w !! s <> Some m -> fd_to_key w' !! m = fd_to_key w !! m)
  /\ created w' = created w
  /\ exists d, trace w' = trace w ++ d /\ forallb (concerns s) d = true.
Proof.
  cbn zeta. split; [|split; [|split]].
  - intros s' Hs'. crunch; try reflexivity.
    all: now rewrite lookup_delete_ne by done.
  - intros m Hm. crunch; try reflexivity.
    all: rewrite lookup_delete_ne; [reflexivity|congruence].
  - crunch; reflexivity.
  - crunch; concern_leaf.
Qed.

(** X2: a connection is unregistered and closed by a read that returned
    no bytes, and by nothing else.  After any echo cycle either the table
    and the sockets are exactly as before, or the cycle returned normally,
    the read had returned no bytes, and the socket is now closed and its
    descriptor unwatched. *)
Theorem connection_closed_only_on_empty_read s w :
  let out := process_client_io os s w in
  (fd_to_key out.2 = fd_to_key w /\ fileno out.2 = fileno w)
  \/ (out.1 = Ok tt
      /\ os_recv os w s = Ok []
      /\ fileno out.2 !! s = None
      /\ exists n, fileno w !! s = Some n /\ fd_to_key out.2 !! n = None).
Proof.
  cbn zeta. crunch; try (left; split; reflexivity).
  all: right; split; [reflexivity|]; split; [assumption|].
  all: split; [apply lookup_delete_eq|].
  all: eexists; split; [reflexivity|apply lookup_delete_eq].
Qed.

End OneConnection.

(** ** Accepting, closing, and descriptors that come back *)

Section Lifecycle.
Variable os : os_model.

(** What [accept_client] does when a connection is there and its
    descriptor has no entry in the table. *)
Lemma accept_client_live ls l n a w :
  fileno w !! ls = Some l ->
  os_accept os w ls = Ok (n, a) ->
  fd_to_key w !! n = None ->
  accept_client os ls w
  = (Ok (created w, a),
     record (Register (created w) n "data_received")
       (set_fd_to_key
          (<[n := {| fileobj := created w; fd := n; events := EVENT_READ;
                     data := "data_received" |}]> (fd_to_key w))
          (record (SetBlocking (created w))
             (record (Accept ls (Ok (created w, n, a))) (new_sock n w))))).
Proof.
  intros Hl Ha Hn. unfold accept_client, sock_accept, bind.
  rewrite Hl, Ha. unfold setblocking, emit.
  rewrite (register_live (created w) n); [reflexivity| |exact Hn].
  apply lookup_insert_eq.
Qed.

(** X3: a connection that is accepted and then closed by its peer leaves
    no residue: after [accept_client] and the echo cycle in which the
    first read returns no bytes, the table and the open sockets are
    exactly what they were before the accept. *)
Theorem accept_then_peer_close_restores ls l n a a' w :
  fileno w !! ls = Some l ->
  os_accept os w ls = Ok (n, a) ->
  fd_to_key w !! n = None ->
  fileno w !! created w = None ->
  let w1 := (accept_client os ls w).2 in
  os_recv os w1 (created w) = Ok [] ->
  os_getpeername os (record (Recv (created w) 1024 (Ok [])) w1) (created w)
  = Ok a' ->
  (accept_client os ls w).1 = Ok (created w, a)
  /\ (process_client_io os (created w) w1).1 = Ok tt
  /\ fd_to_key (process_client_io os (created w) w1).2 = fd_to_key w
  /\ fileno (process_client_io os (created w) w1).2 = fileno w.
Proof.
  intros Hl Ha Hn Hc. rewrite (accept_client_live ls l n a w Hl Ha Hn).
  cbn [fst snd].
  match goal with |- os_recv os ?W _ = _ -> _ => set (w1 := W) end.
  intros Hr Hp. split; [reflexivity|].
  assert (H1 : fileno w1 !! created w = Some n)
    by (unfold w1; tables; apply lookup_insert_eq).
  assert (H2 : is_Some (fd_to_key w1 !! n))
    by (eexists; unfold w1; tables; apply lookup_insert_eq).
  destruct (close_path os (created w) n a' w1 H1 H2 Hr Hp)
    as (w2 & E & Ht & Hf & _).
  rewrite E. cbn [fst snd]. split; [reflexivity|]. rewrite Ht, Hf.
  unfold w1; tables. split; apply delete_insert_id; assumption.
Qed.

(** X4: a descriptor that comes back is welcome.  When a connection was
    closed after a read of no bytes and the system hands its descriptor
    to the next connection, [accept_client] registers the new socket on
    that descriptor without any error: the old entry was removed before
    the old socket was closed. *)
Theorem descriptor_reuse_is_accepted ls l s n a a' w :
  fileno w !! s = Some n ->
  is_Some (fd_to_key w !! n) ->
  fileno w !! created w = None ->
  ls <> s ->
  fileno w !! ls = Some l ->
  os_recv os w s = Ok [] ->
  os_getpeername os (record (Recv s 1024 (Ok [])) w) s = Ok a' ->
  let w1 := (process_client_io os s w).2 in
  os_accept os w1 ls = Ok (n, a) ->
  let out := accept_client os ls w1 in
  out.1 = Ok (created w, a)
  /\ fd_to_key out.2 !! n
     = Some {| fileobj := created w; fd := n; events := EVENT_READ;
               data := "data_received" |}
  /\ fileno out.2 !! created w = Some n
  /\ fileno out.2 !! s = None.
Proof.
  intros Hs Hk Hfresh Hne Hl Hr Hp.
  destruct (close_path os s n a' w Hs Hk Hr Hp) as (w1 & E & Ht & Hf & Hc & _).
  rewrite E. cbn [snd]. intros Ha.
  assert (Hl1 : fileno w1 !! ls = Some l)
    by (rewrite Hf, lookup_delete_ne; [exact Hl|congruence]).
  assert (Hn1 : fd_to_key w1 !! n = None) by (rewrite Ht; apply lookup_delete_eq).
  rewrite (accept_client_live ls l n a w1 Hl1 Ha Hn1). cbn [fst snd].
  rewrite Hc. split; [reflexivity|]. tables. rewrite Hc, Hf.
  split; [apply lookup_insert_eq|]. split; [apply lookup_insert_eq|].
  rewrite lookup_insert_ne by congruence. apply lookup_delete_eq.
Qed.

End Lifecycle.

Lemma accept_then_peer_close_restores_witness :
  let os := Scenario.leaving in
  let w1 := (accept_client os 0%nat Demo.serving).2 in
  (accept_client os 0%nat Demo.serving).1 = Ok (3%nat, Demo.peer)
  /\ (process_client_io os 3%nat w1).1 = Ok tt
  /\ fd_to_key (process_client_io os 3%nat w1).2 = fd_to_key Demo.serving
  /\ fileno (process_client_io os 3%nat w1).2 = fileno Demo.serving.
Proof.
  apply (accept_then_peer_close_restores Scenario.leaving 0%nat 3%Z 7%Z
           Demo.peer Demo.peer Demo.serving); reflexivity.
Defined.

Lemma descriptor_reuse_is_accepted_witness :
  let os := Scenario.handing_out 5 Scenario.leaving in
  let w1 := (process_client_io os 1%nat Demo.serving).2 in
  let out := accept_client os 0%nat w1 in
  out.1 = Ok (3%nat, Demo.peer)
  /\ fd_to_key out.2 !! 5%Z
     = Some {| fileobj := 3%nat; fd := 5; events := EVENT_READ;
               data := "data_received" |}
  /\ fileno out.2 !! 3%nat = Some 5%Z
  /\ fileno out.2 !! 1%nat = None.
Proof.
  apply (descriptor_reuse_is_accepted (Scenario.handing_out 5 Scenario.leaving)
           0%nat 3%Z 1%nat 5%Z Demo.peer Demo.peer Demo.serving);
    try reflexivity; [eexists; reflexivity|discriminate].
Defined.

(** ** Startup and shutdown *)

Section StartStop.
Variable os : os_model.

(** X5: when [bind] fails (the address is in use, say), [main] ends at
    once with that very exception: nothing was registered, no poll was
    made, and neither [unregister] nor [close] is called, since the
    [try ... finally] of [server_socket] was not entered yet. *)
Theorem bind_failure_ends_main polls n e w :
  os_socket os w = Ok n ->
  os_bind os (record (SetSockOpt (created w))
                (record (Socket (created w) n) (new_sock n w))) (created w)
  = Raise e ->
  let out := main os polls w in
  out.1 = Raise e
  /\ fd_to_key out.2 = fd_to_key w
  /\ trace out.2
     = trace w ++ [Socket (created w) n; SetSockOpt (created w);
                   Bind (created w) {| host := HOST; port := PORT |} (Raise e)].
Proof.
  intros Hn Hb.
  assert (E : server_socket_enter os HOST PORT w
              = (Raise e,
                 record (Bind (created w) {| host := HOST; port := PORT |}
                           (Raise e))
                   (record (SetSockOpt (created w))
                      (record (Socket (created w) n) (new_sock n w))))).
  { unfold server_socket_enter, socket, bind. rewrite Hn.
    unfold setsockopt, emit, bind_addr. cbv beta iota.
    rewrite (on_open_live (created w) _ _ _ n) by apply lookup_insert_eq.
    now rewrite Hb. }
  cbn zeta. unfold main. rewrite (bind_raise _ _ _ _ _ E). cbn.
  rewrite <- ?app_assoc. repeat split.
Qed.

Hypothesis os_sane : sane os.

Lemma dispatch_loop_listening polls ls w :
  consistent w -> listening ls w ->
  consistent (dispatch_loop os polls ls w).2
  /\ listening ls (dispatch_loop os polls ls w).2.
Proof.
  revert w. induction polls as [|polls IH]; intros w Hw Hl; [now split|].
  rewrite dispatch_loop_step.
  destruct (select_consistent os os_sane POLL_TIMEOUT w Hw) as (Hc & Ht & Hf & Hb).
  destruct (select os POLL_TIMEOUT w) as [[evs|e] w1]; cbn [fst snd] in *.
  2:{ split; [exact Hc|]. destruct Hl as (n & k & H1 & H2 & H3).
      exists n, k. now rewrite Hf, Ht. }
  assert (Hl1 : listening ls w1).
  { destruct Hl as (n & k & H1 & H2 & H3). exists n, k. now rewrite Hf, Ht. }
  destruct (for_events_consistent os os_sane ls evs w1 Hc Hl1 (Hb evs eq_refl))
    as [Hc2 Hl2].
  destruct (for_events os ls evs w1) as [[[]|e] w2]; cbn [snd] in *.
  - now apply IH.
  - now split.
Qed.

End StartStop.

Lemma start_consistent : consistent start.
Proof.
  split; [split; intros *; rewrite ?lookup_empty; discriminate|reflexivity|].
  intros n s. cbn. rewrite lookup_empty. discriminate.
Qed.

(** X6: shutdown.  Once the listening socket is set up, an exception [e]
    that leaves the dispatch loop is the one that leaves [main]: the
    [finally] block unregisters and closes the listening socket without
    failing, and does nothing else.  The connections accepted so far stay
    open and registered. *)
Theorem shutdown_releases_the_listening_socket_only os polls ls w1 e w2 :
  sane os ->
  server_socket_enter os HOST PORT start = (Ok ls, w1) ->
  dispatch_loop os polls ls
    (record (Listen ls)
       (record (Log INFO (Codec.lit "Server listening on " ++ dotted HOST
                          ++ Codec.lit ":" ++ dec PORT)) w1))
  = (Raise e, w2) ->
  exists n w3,
    main os polls start = (Raise e, w3)
    /\ fileno w2 !! ls = Some n
    /\ trace w3 = trace w2 ++ [Unregister ls n; Close ls n]
    /\ fd_to_key w3 = delete n (fd_to_key w2)
    /\ fileno w3 = delete ls (fileno w2).
Proof.
  intros Hos He Hd.
  destruct (server_socket_enter_consistent os Hos HOST PORT start start_consistent)
    as [Hc Hl].
  rewrite He in Hc, Hl. cbn [fst snd] in Hc, Hl. specialize (Hl ls eq_refl).
  set (w1' := record (Listen ls) (record (Log INFO _) w1)) in Hd.
  assert (Hc' : consistent w1')
    by (do 2 (apply consistent_record; [|reflexivity|exact I]); exact Hc).
  destruct (dispatch_loop_listening os Hos polls ls w1' Hc' Hl) as [_ Hl2].
  rewrite Hd in Hl2. cbn [snd] in Hl2. destruct Hl2 as (n & k & Hn & Hk & _).
  exists n. eexists. unfold main, bind at 1. rewrite He.
  unfold with_server_socket, bind at 1 2, logger.info, listen, emit.
  fold w1'. rewrite Hd. unfold finally, raise, server_socket_exit, bind.
  rewrite (unregister_live ls n w2 Hn (ex_intro _ k Hk)).
  rewrite (close_live ls n) by exact Hn.
  split; [reflexivity|]. split; [exact Hn|]. cbn.
  now rewrite <- !app_assoc.
Qed.

Lemma bind_failure_ends_main_witness :
  let os := Scenario.address_in_use Scenario.chatty in
  let out := main os 3 start in
  out.1 = Raise (OSError 98)
  /\ fd_to_key out.2 = fd_to_key start
  /\ trace out.2
     = trace start ++ [Socket 0%nat 3%Z; SetSockOpt 0%nat;
                   Bind 0%nat {| host := HOST; port := PORT |} (Raise (OSError 98))].
Proof.
  apply (bind_failure_ends_main (Scenario.address_in_use Scenario.chatty)
           3 3%Z (OSError 98) start); reflexivity.
Defined.

Lemma shutdown_releases_the_listening_socket_only_witness :
  let os := Demo.system Demo.reset_on_1 (fun _ => Ok Demo.peer) in
  let w1 := (server_socket_enter os HOST PORT start).2 in
  let w2 :=
    (dispatch_loop os 2 0%nat
       (record (Listen 0%nat)
          (record (Log INFO (Codec.lit "Server listening on " ++ dotted HOST
                             ++ Codec.lit ":" ++ dec PORT)) w1))).2 in
  exists n w3,
    main os 2 start = (Raise (OSError ECONNRESET), w3)
    /\ fileno w2 !! 0%nat = Some n
    /\ trace w3 = trace w2 ++ [Unregister 0%nat n; Close 0%nat n]
    /\ fd_to_key w3 = delete n (fd_to_key w2)
    /\ fileno w3 = delete 0%nat (fileno w2).
Proof.
  intros os w1 w2.
  apply (shutdown_releases_the_listening_socket_only os 2 0%nat w1
           (OSError ECONNRESET) w2);
    [apply system_sane | vm_compute; reflexivity | vm_compute; reflexivity].
Defined.

(** ** The default case of the dispatch is dead code *)

Lemma calm_intro w :
  well_tagged (fd_to_key w) ->
  Forall (fun a => is_error_log a = false) (trace w) -> calm w.
Proof. now split. Qed.

Ltac calm_leaf :=
  apply calm_intro; tables;
  [ repeat first [ assumption
                 | apply map_Forall_delete
                 | apply map_Forall_insert_2; [cbn; auto|] ]
  | rewrite ?Forall_app; repeat split; try assumption; repeat constructor ].

Section Calm.
Variable os : os_model.

Lemma process_client_io_calm s w : calm w -> calm (process_client_io os s w).2.
Proof. intros [Hw Ht]. crunch; calm_leaf. Qed.

Lemma accept_branch_calm ls w : calm w -> calm (accept_branch os ls w).2.
Proof. intros [Hw Ht]. unfold accept_branch. crunch; calm_leaf. Qed.

Lemma dispatch_calm ls k w :
  known_tag k -> calm w -> calm (dispatch os ls k w).2.
Proof.
  intros Hk Hw. unfold dispatch.
  destruct (String.eqb_spec (data k) "client_connected") as [E1|E1].
  - now apply accept_branch_calm.
  - destruct (String.eqb_spec (data k) "data_received") as [E2|E2].
    + now apply process_client_io_calm.
    + now destruct Hk.
Qed.

Lemma for_events_calm ls evs : forall w,
  Forall known_tag evs -> calm w -> calm (for_events os ls evs w).2.
Proof.
  induction evs as [|k rest IH]; intros w Hevs Hw; [exact Hw|].
  apply Forall_cons in Hevs as [Hk Hrest].
  cbn [for_events]. unfold bind.
  pose proof (dispatch_calm ls k w Hk Hw) as H1.
  destruct (dispatch os ls k w) as [[[]|e] w1]; cbn [snd] in *; auto.
Qed.

Lemma select_calm timeout w :
  calm w ->
  calm (select os timeout w).2
  /\ forall evs, (select os timeout w).1 = Ok evs -> Forall known_tag evs.
Proof.
  intros [Hw Ht]. unfold select.
  destruct (os_epoll os w) as [ready|e]; cbn [fst snd].
  - split; [calm_leaf|]. intros evs [= <-].
    apply Forall_forall. intros k Hin.
    apply list_elem_of_omap in Hin as (n & _ & Hn). exact (Hw n k Hn).
  - split; [now split|discriminate].
Qed.

Lemma dispatch_loop_calm polls ls : forall w,
  calm w -> calm (dispatch_loop os polls ls w).2.
Proof.
  induction polls as [|polls IH]; intros w Hw; [exact Hw|].
  rewrite dispatch_loop_step.
  destruct (select_calm POLL_TIMEOUT w Hw) as [Hs Hevs].
  destruct (select os POLL_TIMEOUT w) as [[evs|e] w1]; cbn [fst snd] in *;
    [|exact Hs].
  pose proof (for_events_calm ls evs w1 (Hevs evs eq_refl) Hs) as Hf.
  destruct (for_events os ls evs w1) as [[[]|e] w2]; cbn [snd] in *; auto.
Qed.

(** X7: the default case of the [match] in [main] is never reached.  In
    every run of [main], whatever the system and the peers do, every entry
    of the selector's table carries one of the two tags
    "client_connected" and "data_received", and no "Unknown event" line
    (nor any other message at the error level) is logged. *)
Theorem unknown_event_is_never_logged polls :
  well_tagged (fd_to_key (main os polls start).2)
  /\ Forall (fun a => is_error_log a = false) (trace (main os polls start).2).
Proof.
  change (calm (main os polls start).2).
  assert (H0 : calm start) by (split; [apply map_Forall_empty|constructor]).
  destruct H0 as [Hw Ht].
  unfold main, bind at 1.
  assert (He : calm (server_socket_enter os HOST PORT start).2)
    by (crunch; calm_leaf).
  destruct (server_socket_enter os HOST PORT start) as [[ls|e] w1];
    cbn [snd] in *; [|exact He].
  unfold with_server_socket, bind, logger.info, listen, emit.
  set (w2 := record (Listen ls) (record (Log INFO _) w1)).
  assert (H2 : calm w2) by (destruct He; subst w2; calm_leaf).
  pose proof (dispatch_loop_calm polls ls w2 H2) as H3.
  destruct (dispatch_loop os polls ls w2) as [[[]|e] w3]; cbn [snd] in *;
    [exact H3|].
  unfold finally, raise.
  assert (H4 : calm (server_socket_exit ls w3).2)
    by (destruct H3; crunch; calm_leaf).
  now destruct (server_socket_exit ls w3) as [[[]|e'] w4].
Qed.

End Calm.

(** ** Every write is an echo *)

Lemma echoes_only_app d : forall before t,
  echoes_only before (t ++ d)
  <-> echoes_only before t /\ echoes_only (rev t ++ before) d.
Proof.
  intros before t. revert before.
  induction t as [|a t IH]; intros before; cbn [app rev echoes_only].
  - tauto.
  - rewrite IH, <- app_assoc. cbn [app]. tauto.
Qed.

Lemma echoes_only_quiet d : forall before,
  existsb is_send d = false -> echoes_only before d.
Proof.
  induction d as [|a d IH]; intros before; [constructor|].
  cbn [existsb]. intros [Ha Hd]%orb_false_iff.
  split; [|now apply IH]. now destruct a.
Qed.

Lemma echoing_refl w : echoing w w.
Proof. exists []. split; [now rewrite app_nil_r|constructor]. Qed.

Lemma echoing_trans w1 w2 w3 : echoing w1 w2 -> echoing w2 w3 -> echoing w1 w3.
Proof.
  intros (d1 & E1 & H1) (d2 & E2 & H2). exists (d1 ++ d2).
  split; [now rewrite E2, E1, app_assoc|].
  intros before. apply echoes_only_app. split; [apply H1|apply H2].
Qed.

Lemma echoing_quiet w w' d :
  trace w' = trace w ++ d -> existsb is_send d = false -> echoing w w'.
Proof.
  intros E H. exists d. split; [exact E|].
  intros before. now apply echoes_only_quiet.
Qed.

Ltac quiet_leaf :=
  eapply echoing_quiet;
  [ tables; rewrite <- ?app_assoc; cbn [app];
    first [reflexivity | symmetry; apply app_nil_r]
  | reflexivity ].

Section Echoes.
Variable os : os_model.

Lemma process_client_io_echoing s w : echoing w (process_client_io os s w).2.
Proof.
  unfold process_client_io, bind.
  destruct (sock_recv os s 1024 w) as [[[|b0 b]|e] w1] eqn:Hr.
  - revert Hr. crunch; intros; simplify_eq; quiet_leaf.
  - revert Hr. crunch; intros; simplify_eq; try quiet_leaf.
    match goal with
    | Hd : Codec.decode _ = Some ?text, He : Codec.encode _ = Some _ |- _ =>
      rewrite (encode_label _ text _ (decode_encode _ _ Hd)) in He
    end.
    simplify_eq.
    repeat match goal with
           | H : os_recv _ _ _ = _ |- _ => try rewrite H in *; clear H
           | H : os_getpeername _ _ _ = _ |- _ => try rewrite H in *; clear H
           end.
    eexists. split.
    { tables. rewrite <- ?app_assoc. cbn [app]. reflexivity. }
    intros before. cbn. repeat split.
    eexists _, _, _, _, _. split; [reflexivity|]. split; [discriminate|].
    reflexivity.
  - revert Hr. crunch; intros; simplify_eq; quiet_leaf.
Qed.

Lemma accept_branch_echoing ls w : echoing w (accept_branch os ls w).2.
Proof. unfold accept_branch. crunch; quiet_leaf. Qed.

Lemma dispatch_echoing ls k w : echoing w (dispatch os ls k w).2.
Proof.
  unfold dispatch. destruct (String.eqb (data k) "client_connected").
  - apply accept_branch_echoing.
  - destruct (String.eqb (data k) "data_received").
    + apply process_client_io_echoing.
    + crunch; quiet_leaf.
Qed.

Lemma for_events_echoing ls evs : forall w,
  echoing w (for_events os ls evs w).2.
Proof.
  induction evs as [|k rest IH]; intros w; [apply echoing_refl|].
  cbn [for_events]. unfold bind.
  pose proof (dispatch_echoing ls k w) as H1.
  destruct (dispatch os ls k w) as [[[]|e] w1]; cbn [snd] in *; [|exact H1].
  exact (echoing_trans _ _ _ H1 (IH w1)).
Qed.

Lemma dispatch_loop_echoing polls ls : forall w,
  echoing w (dispatch_loop os polls ls w).2.
Proof.
  induction polls as [|polls IH]; intros w; [apply echoing_refl|].
  rewrite dispatch_loop_step.
  assert (Hs : echoing w (select os POLL_TIMEOUT w).2) by (crunch; quiet_leaf).
  destruct (select os POLL_TIMEOUT w) as [[evs|e] w1]; cbn [snd] in *;
    [|exact Hs].
  pose proof (for_events_echoing ls evs w1) as Hf.
  destruct (for_events os ls evs w1) as [[[]|e] w2]; cbn [snd] in *.
  - exact (echoing_trans _ _ _ Hs (echoing_trans _ _ _ Hf (IH w2))).
  - exact (echoing_trans _ _ _ Hs Hf).
Qed.

Lemma main_echoing polls w : echoing w (main os polls w).2.
Proof.
  unfold main, bind at 1.
  assert (He : echoing w (server_socket_enter os HOST PORT w).2)
    by (crunch; quiet_leaf).
  destruct (server_socket_enter os HOST PORT w) as [[ls|e] w1];
    cbn [snd] in *; [|exact He].
  unfold with_server_socket, bind, logger.info, listen, emit.
  set (w2 := record (Listen ls) (record (Log INFO _) w1)).
  assert (H2 : echoing w1 w2) by (subst w2; quiet_leaf).
  pose proof (dispatch_loop_echoing polls ls w2) as H3.
  destruct (dispatch_loop os polls ls w2) as [[[]|e] w3]; cbn [snd] in *.
  { exact (echoing_trans _ _ _ He (echoing_trans _ _ _ H2 H3)). }
  unfold finally, raise.
  assert (H4 : echoing w3 (server_socket_exit ls w3).2) by (crunch; quiet_leaf).
  destruct (server_socket_exit ls w3) as [[[]|e'] w4]; cbn [snd] in *.
  all: exact (echoing_trans _ _ _ He
                (echoing_trans _ _ _ H2 (echoing_trans _ _ _ H3 H4))).
Qed.

End Echoes.

(** X8: the server never writes on its own.  In every run of [main],
    each [sendall] on a socket comes at the end of a handling that began
    with a read of a non-empty chunk on that same socket, and what it
    writes is the label "Client=<peer>| Echo: " followed by the octets of
    that chunk and nothing else. *)
Theorem every_write_is_an_echo os polls p s payload r q :
  trace (main os polls start).2 = p ++ SendAll s payload r :: q ->
  exists p' chunk a1 text a2,
    p = p' ++ [Recv s 1024 (Ok chunk); GetPeerName s (Ok a1); Log INFO text;
               GetPeerName s (Ok a2)]
    /\ chunk <> []
    /\ payload = echo_label a2 ++ chunk.
Proof.
  intros E. destruct (main_echoing os polls start) as (d & Ed & Hd).
  cbn in Ed. subst d. specialize (Hd []). rewrite E in Hd.
  apply echoes_only_app in Hd as [_ [Hs _]].
  destruct Hs as (chunk & a1 & text & a2 & rest & Hrev & Hne & Hp).
  exists (rev rest), chunk, a1, text, a2. split; [|now split].
  rewrite app_nil_r in Hrev. apply (f_equal (@rev action)) in Hrev.
  rewrite rev_involutive in Hrev. rewrite Hrev. cbn.
  now rewrite <- !app_assoc.
Qed.

Lemma every_write_is_an_echo_witness :
  let os := Scenario.chatty in
  let t := trace (main os 2 start).2 in
  exists p' chunk a1 text a2,
    take 25 t = p' ++ [Recv 1%nat 1024 (Ok chunk); GetPeerName 1%nat (Ok a1);
                      Log INFO text; GetPeerName 1%nat (Ok a2)]
    /\ chunk <> []
    /\ map Codec.byte_of (Codec.lit "Client=('127.0.0.1', 54321)| Echo: 42")
        = echo_label a2 ++ chunk.
Proof.
  intros os t.
  apply (every_write_is_an_echo os 2 (take 25 t) 1%nat _ (Ok tt) (drop 26 t)).
  vm_compute. reflexivity.
Defined.

(** ** Encoding and decoding back *)

Section CodecBack.
Import Codec.

Lemma to_N_byte_of n : n < 256 -> Byte.to_N (byte_of n) = n.
Proof.
  intros H. unfold byte_of. destruct (Byte.of_N n) as [b|] eqn:E.
  - now apply Byte.to_of_N.
  - apply Byte.of_N_None_iff in E. lia.
Qed.

Local Ltac arith := zify; Z.to_euclidean_division_equations; lia.

Local Ltac tests :=
  repeat match goal with
         | |- context [N.ltb ?a ?b] => destruct (N.ltb_spec a b); try arith
         | |- context [N.eqb ?a ?b] => destruct (N.eqb_spec a b); try arith
         | |- context [N.leb ?a ?b] => destruct (N.leb_spec a b); try arith
         end.

(** The octets of one code point decode to that code point. *)
Lemma decode_point c bs rest :
  encode_point c = Some bs -> decode (bs ++ rest) = cons c <$> decode rest.
Proof.
  unfold encode_point.
  destruct (N.ltb_spec c 128).
  { intros [= <-]. cbn [app decode]. rewrite to_N_byte_of by lia.
    destruct (N.ltb_spec c 128); [reflexivity|lia]. }
  destruct (N.ltb_spec c 2048).
  { intros [= <-]. cbn [app decode]. unfold between, tail_bits.
    rewrite !to_N_byte_of by arith. tests.
    all: cbn [andb].
    all: match goal with
         | |- cons ?e <$> _ = _ => replace e with c by arith
         end; reflexivity. }
  destruct (N.ltb_spec c 65536).
  { destruct (N.leb_spec 55296 c), (N.leb_spec c 57343); cbn [andb];
      try discriminate.
    all: intros [= <-]; cbn [app decode]; unfold between, tail_bits.
    all: rewrite !to_N_byte_of by arith; tests; cbn [andb].
    all: match goal with
         | |- cons ?e <$> _ = _ => replace e with c by arith
         end; reflexivity. }
  destruct (N.ltb_spec c 1114112); [|discriminate].
  intros [= <-]. cbn [app decode]. unfold between, tail_bits.
  rewrite !to_N_byte_of by arith. tests.
  all: cbn [andb].
  all: match goal with
       | |- cons ?e <$> _ = _ => replace e with c by arith
       end; reflexivity.
Qed.

(** Decoding what [encode] produced gives back the text. *)
Lemma encode_decode s : forall bs, encode s = Some bs -> decode bs = Some s.
Proof.
  induction s as [|c s IH]; intros bs; cbn [encode].
  - now intros [= <-].
  - destruct (encode_point c) as [bc|] eqn:Ec; [|discriminate].
    destruct (encode s) as [rest|]; [|discriminate].
    intros [= <-]. now rewrite (decode_point c bc rest Ec), (IH rest eq_refl).
Qed.

Lemma encode_point_nonempty c bs : encode_point c = Some bs -> bs <> [].
Proof.
  unfold encode_point.
  repeat match goal with
         | |- context [if ?b then _ else _] => destruct b
         end; intros [= <-]; discriminate.
Qed.

Lemma encode_nonempty s bs : encode s = Some bs -> s <> [] -> bs <> [].
Proof.
  destruct s as [|c s]; [contradiction|]. cbn [encode].
  destruct (encode_point c) as [bc|] eqn:Ec; [|discriminate].
  destruct (encode s) as [rest|]; [|discriminate].
  intros [= <-] _ E. apply app_eq_nil in E as [E _].
  exact (encode_point_nonempty c bc Ec E).
Qed.

End CodecBack.

(** * The test client *)

Ltac client_crunch :=
  unfold Client.iteration, Client.try_except, Client.send_and_receive_data,
    Client.sleep, Client.randint, Client.print, Client.sendall, Client.recv,
    Client.encode, Client.decode, Client.call, Client.bind, Client.ret,
    Client.raise in *;
  repeat first [ progress cbn [Client.made Client.log Client.note fst snd] in *
               | case_match
               | progress simplify_eq ].

Ltac client_log :=
  cbn [Client.made Client.log Client.note fst snd];
  rewrite <- ?app_assoc; cbn [app];
  first [reflexivity | symmetry; apply app_nil_r].

Section ClientLoop.
Variable sys : Client.env.

Lemma client_loop_step rounds s st :
  Client.loop sys (S rounds) s st
  = match Client.iteration sys s st with
    | (Ok _, st1) => Client.loop sys rounds s st1
    | (Raise e, st1) => (Raise e, st1)
    end.
Proof. reflexivity. Qed.

Lemma iteration_raises s st e :
  (Client.iteration sys s st).1 = Raise e ->
  Client.is_Exception e = false
  \/ exists text,
       last (Client.log (Client.iteration sys s st).2)
       = Some (Client.Print (Codec.lit "An error occurred: " ++ text)
                 (Raise e)).
Proof.
  client_crunch; cbn [fst]; intros E; simplify_eq.
  all: first [ left; assumption
             | right; eexists; rewrite last_snoc;
               match goal with
               | H : Client.env_print _ _ _ = Raise _ |- _ => rewrite H
               end; reflexivity ].
Qed.

(** X9: what ends the client's loop.  The loop is only ended by an
    exception that is not an [Exception] (Ctrl-C), or by the [print] of
    the [except] handler itself raising, as it does when the standard
    output is closed or broken; in that case the line "An error
    occurred: ..." is the last thing the client tried to do.  A failed
    send, a failed read, a reply that is not UTF-8 are caught, and the
    loop goes on. *)
Theorem client_loop_ends_by_interrupt_or_broken_output rounds s st e :
  (Client.loop sys rounds s st).1 = Raise e ->
  Client.is_Exception e = false
  \/ exists text,
       last (Client.log (Client.loop sys rounds s st).2)
       = Some (Client.Print (Codec.lit "An error occurred: " ++ text)
                 (Raise e)).
Proof.
  revert st. induction rounds as [|rounds IH]; intros st; [discriminate|].
  rewrite client_loop_step.
  pose proof (iteration_raises s st) as Hi.
  destruct (Client.iteration sys s st) as [[[]|e'] st1]; cbn [fst snd] in *.
  - apply IH.
  - intros [= <-]. now apply Hi.
Qed.

Lemma iteration_stays_on s st :
  exists d,
    Client.log (Client.iteration sys s st).2 = Client.log st ++ d
    /\ forallb (Client.stays_on s) d = true
    /\ Client.made (Client.iteration sys s st).2 = Client.made st.
Proof.
  client_crunch.
  all: eexists; split; [client_log|].
  all: cbn; rewrite ?Nat.eqb_refl; split; reflexivity.
Qed.

(** X10: the client never reconnects.  Whatever fails, the loop makes no
    new socket and no [connect]; every send and every read of every round
    is on the one socket made before the loop. *)
Theorem client_never_reconnects rounds s st :
  exists d,
    Client.log (Client.loop sys rounds s st).2 = Client.log st ++ d
    /\ forallb (Client.stays_on s) d = true
    /\ Client.made (Client.loop sys rounds s st).2 = Client.made st.
Proof.
  revert st. induction rounds as [|rounds IH]; intros st.
  { exists []. cbn. now rewrite app_nil_r. }
  rewrite client_loop_step.
  destruct (iteration_stays_on s st) as (d1 & E1 & H1 & M1).
  destruct (Client.iteration sys s st) as [[[]|e'] st1]; cbn [fst snd] in *.
  - destruct (IH st1) as (d2 & E2 & H2 & M2). exists (d1 ++ d2).
    rewrite E2, E1, M2, M1, forallb_app, H1, H2, app_assoc. now repeat split.
  - now exists d1.
Qed.

Lemma iteration_sends_small_number s st :
  exists d,
    Client.log (Client.iteration sys s st).2 = Client.log st ++ d
    /\ Forall Client.sends_small_number d.
Proof.
  client_crunch.
  all: repeat match goal with
         | H : Codec.encode (dec _) = _ |- _ =>
           rewrite encode_ascii in H by apply ascii_only_dec; simplify_eq
         end.
  all: eexists; split; [client_log|].
  all: repeat constructor.
  all: eexists; split; [|reflexivity].
  all: zify; Z.to_euclidean_division_equations; lia.
Qed.

Lemma loop_sends_small_numbers rounds s st :
  exists d,
    Client.log (Client.loop sys rounds s st).2 = Client.log st ++ d
    /\ Forall Client.sends_small_number d.
Proof.
  revert st. induction rounds as [|rounds IH]; intros st.
  { exists []. cbn. now rewrite app_nil_r. }
  rewrite client_loop_step.
  destruct (iteration_sends_small_number s st) as (d1 & E1 & H1).
  destruct (Client.iteration sys s st) as [[[]|e'] st1]; cbn [fst snd] in *.
  - destruct (IH st1) as (d2 & E2 & H2). exists (d1 ++ d2).
    rewrite E2, E1, app_assoc. split; [reflexivity|]. now apply Forall_app.
  - now exists d1.
Qed.

Lemma encode_number n st :
  Client.encode (dec n) st = (Ok (map Codec.byte_of (dec n)), st).
Proof.
  unfold Client.encode. now rewrite encode_ascii by apply ascii_only_dec.
Qed.

Lemma iteration_sends s st :
  (forall st', Client.env_sleep sys st' = Ok tt) ->
  (forall st' text, Client.env_print sys st' text = Ok tt) ->
  exists n r d,
    n <= 100
    /\ Client.log (Client.iteration sys s st).2
       = Client.log st
         ++ [Client.Sleep 1 (Ok tt); Client.RandInt 0 100 n;
             Client.Print (Codec.lit "Sending data to server: " ++ dec n)
               (Ok tt);
             Client.SendAll s (map Codec.byte_of (dec n)) r]
         ++ d.
Proof.
  intros Hsleep Hprint. client_crunch.
  all: repeat match goal with
         | H : Client.env_sleep _ _ = Raise _ |- _ =>
           rewrite Hsleep in H; discriminate
         | H : Client.env_print _ _ _ = Raise _ |- _ =>
           rewrite Hprint in H; discriminate
         | H : Codec.encode (dec _) = _ |- _ =>
           rewrite encode_ascii in H by apply ascii_only_dec; simplify_eq
         | a : unit |- _ => destruct a
         end.
  all: eexists _, _, _; split; [|client_log].
  all: zify; Z.to_euclidean_division_equations; lia.
Qed.

(** X11: what the client sends.  Encoding the decimal digits of a number
    never raises; every message of every round is a number from 0 to 100
    written in decimal digits (so never empty); and in a round whose
    [sleep] is not interrupted and whose lines can be printed, the
    message is sent: after the sleep, the draw and the line "Sending data
    to server" comes one [sendall] of these digits on the client's
    socket. *)
Theorem client_sends_small_numbers rounds s st :
  (forall n st',
      Client.encode (dec n) st' = (Ok (map Codec.byte_of (dec n)), st'))
  /\ (exists d,
        Client.log (Client.loop sys rounds s st).2 = Client.log st ++ d
        /\ Forall Client.sends_small_number d)
  /\ ((forall st', Client.env_sleep sys st' = Ok tt) ->
      (forall st' text, Client.env_print sys st' text = Ok tt) ->
      exists n r d,
        n <= 100
        /\ Client.log (Client.iteration sys s st).2
           = Client.log st
             ++ [Client.Sleep 1 (Ok tt); Client.RandInt 0 100 n;
                 Client.Print (Codec.lit "Sending data to server: " ++ dec n)
                   (Ok tt);
                 Client.SendAll s (map Codec.byte_of (dec n)) r]
             ++ d).
Proof.
  split; [exact encode_number|]. split; [apply loop_sends_small_numbers|].
  apply iteration_sends.
Qed.

(** X12: a refused connection ends the client.  The [try] of the loop
    does not cover [create_client_socket]: when [connect] raises, [main]
    ends with that exception before anything is printed and before the
    first round. *)
Theorem refused_connection_ends_client rounds st e :
  Client.env_socket sys st = Ok tt ->
  Client.env_connect sys
    {| Client.made := S (Client.made st);
       Client.log := Client.log st ++ [Client.Socket (Client.made st)] |}
    (Client.made st) = Raise e ->
  let out := Client.main sys rounds st in
  out.1 = Raise e
  /\ Client.log out.2
     = Client.log st
       ++ [Client.Socket (Client.made st);
           Client.Connect (Client.made st)
             {| host := Client.HOST; port := Client.PORT |} (Raise e)].
Proof.
  intros Hs Hc. cbn zeta.
  unfold Client.main, Client.create_client_socket, Client.socket,
    Client.connect, Client.call, Client.bind.
  rewrite Hs, Hc. cbn. now rewrite <- app_assoc.
Qed.

End ClientLoop.

Lemma client_loop_ends_by_interrupt_or_broken_output_witness :
  (Client.loop (Client.abandoned 6) 3 0%nat Client.start).1
  = Raise KeyboardInterrupt
  /\ (Client.is_Exception KeyboardInterrupt = false
      \/ exists text,
           last (Client.log
                   (Client.loop (Client.abandoned 6) 3 0%nat Client.start).2)
           = Some (Client.Print (Codec.lit "An error occurred: " ++ text)
                     (Raise KeyboardInterrupt))).
Proof.
  assert (H : (Client.loop (Client.abandoned 6) 3 0%nat Client.start).1
              = Raise KeyboardInterrupt) by (vm_compute; reflexivity).
  split; [exact H|].
  exact (client_loop_ends_by_interrupt_or_broken_output _ _ _ _ _ H).
Defined.

Lemma client_sends_small_numbers_witness :
  let sys := Client.answering Demo.forty_two in
  exists n r d,
    n <= 100
    /\ Client.log (Client.iteration sys 0%nat Client.start).2
       = Client.log Client.start
         ++ [Client.Sleep 1 (Ok tt); Client.RandInt 0 100 n;
             Client.Print (Codec.lit "Sending data to server: " ++ dec n)
               (Ok tt);
             Client.SendAll 0%nat (map Codec.byte_of (dec n)) r]
         ++ d.
Proof.
  intros sys.
  destruct (client_sends_small_numbers sys 1 0%nat Client.start)
    as (_ & _ & Hsend).
  apply Hsend; reflexivity.
Defined.

Lemma refused_connection_ends_client_witness :
  let out := Client.main Client.refused 5 Client.start in
  out.1 = Raise (OSError 111)
  /\ Client.log out.2
     = Client.log Client.start
       ++ [Client.Socket 0%nat;
           Client.Connect 0%nat
             {| host := Client.HOST; port := Client.PORT |}
             (Raise (OSError 111))].
Proof.
  apply (refused_connection_ends_client Client.refused 5 Client.start
           (OSError 111)); reflexivity.
Defined.

(** * The client and the server together *)

(** X13: what the client gets back.  When the octets of the client's
    message [data] arrive at the server in one read, the server writes one
    payload, and when that payload arrives at the client in one read,
    [send_and_receive_data] returns "Client=<peer>| Echo: " followed by
    [data]: the message comes back unchanged behind the label. *)
Theorem echo_is_read_back os sys s n a data m w cs st :
  fileno w !! s = Some n ->
  data <> [] ->
  Codec.encode data = Some m ->
  os_recv os w s = Ok m ->
  (forall w', os_getpeername os w' s = Ok a) ->
  exists payload w1 r,
    process_client_io os s w = (r, record (SendAll s payload r) w1)
    /\ (Client.env_sendall sys st cs m = Ok tt ->
        Client.env_recv sys (Client.note (Client.SendAll cs m (Ok tt)) st) cs
        = Ok payload ->
        (Client.send_and_receive_data sys cs data st).1
        = Ok (Codec.lit "Client=" ++ show_addr a ++ Codec.lit "| Echo: "
              ++ data)).
Proof.
  intros Hs Hne Henc Hr Ha.
  pose proof (encode_nonempty data m Henc Hne) as Hm.
  pose proof (encode_decode data m Henc) as Hdec.
  pose proof (encode_label a data m Henc) as Hlab.
  unfold process_client_io, bind.
  rewrite (sock_recv_live os s 1024 w n Hs), Hr.
  destruct m as [|b0 b]; [contradiction|].
  rewrite (getpeername_live os s _ n), Ha by exact Hs.
  unfold decode. rewrite Hdec. unfold ret, logger.info, emit.
  rewrite (getpeername_live os s _ n), Ha by exact Hs.
  unfold encode. rewrite Hlab. cbv beta iota delta [ret].
  rewrite (sock_sendall_live os s _ _ n) by exact Hs.
  eexists _, _, _. split; [reflexivity|].
  intros Hsend Hrecv.
  unfold Client.send_and_receive_data, Client.encode, Client.bind.
  rewrite Henc. unfold Client.ret, Client.sendall, Client.recv, Client.call.
  rewrite Hsend, Hrecv. unfold Client.decode.
  now rewrite (encode_decode _ _ Hlab).
Qed.

Lemma echo_is_read_back_witness :
  let reply :=
    map Codec.byte_of (Codec.lit "Client=('127.0.0.1', 54321)| Echo: 42") in
  exists payload w1 r,
    process_client_io Scenario.chatty 1%nat Demo.serving
    = (r, record (SendAll 1%nat payload r) w1)
    /\ (Client.env_sendall (Client.answering reply) Client.start 0%nat
          Demo.forty_two = Ok tt ->
        Client.env_recv (Client.answering reply)
          (Client.note (Client.SendAll 0%nat Demo.forty_two (Ok tt))
             Client.start) 0%nat
        = Ok payload ->
        (Client.send_and_receive_data (Client.answering reply) 0%nat
           (dec 42) Client.start).1
        = Ok (Codec.lit "Client=" ++ show_addr Demo.peer
              ++ Codec.lit "| Echo: " ++ dec 42)).
Proof.
  intros reply.
  apply (echo_is_read_back Scenario.chatty (Client.answering reply) 1%nat 5%Z
           Demo.peer (dec 42) Demo.forty_two Demo.serving 0%nat Client.start);
    try reflexivity.
  discriminate.
Defined.

(** * The server keeps running *)

Section Progress.
Variable os : os_model.
Hypothesis os_sane : sane os.
Hypothesis os_obliging : obliging os.

Lemma getpeername_ok s n w :
  fileno w !! s = Some n ->
  exists a, getpeername os s w = (Ok a, record (GetPeerName s (Ok a)) w).
Proof.
  intros Hs. destruct (obliging_getpeername os os_obliging w s) as [a Ha].
  exists a. now rewrite (getpeername_live os s w n Hs), Ha.
Qed.

Lemma process_client_io_ok s n w :
  fileno w !! s = Some n -> is_Some (fd_to_key w !! n) ->
  (process_client_io os s w).1 = Ok tt.
Proof.
  intros Hs Hk. unfold process_client_io, bind.
  rewrite (sock_recv_live os s 1024 w n Hs).
  destruct (obliging_recv os os_obliging w s) as (b & text & -> & Hd).
  destruct b as [|b0 b].
  - destruct (getpeername_ok s n (record (Recv s 1024 (Ok [])) w) Hs)
      as [a ->].
    unfold logger.info, emit.
    rewrite (unregister_live s n) by (exact Hs || exact Hk).
    now rewrite (close_live s n) by exact Hs.
  - destruct (getpeername_ok s n (record (Recv s 1024 (Ok (b0 :: b))) w) Hs)
      as [a ->].
    unfold decode. rewrite Hd. unfold ret, logger.info, emit.
    match goal with
    | |- context [getpeername os s ?W] =>
      destruct (getpeername_ok s n W Hs) as [a' ->]
    end.
    unfold encode.
    rewrite (encode_label a' text (b0 :: b) (decode_encode _ _ Hd)).
    cbv beta iota delta [ret].
    rewrite (sock_sendall_live os s _ _ n) by exact Hs.
    now rewrite (obliging_sendall os os_obliging).
Qed.

Lemma accept_branch_ok ls n w :
  consistent w -> fileno w !! ls = Some n ->
  (accept_branch os ls w).1 = Ok tt.
Proof.
  intros Hw Hl.
  destruct (obliging_accept os os_obliging w ls) as (c & a & Ha).
  assert (Hnone : fd_to_key w !! c = None).
  { destruct (fd_to_key w !! c) as [k|] eqn:Hc; [|reflexivity].
    destruct (tidy_keys w (consistent_tidy w Hw) c k Hc) as [_ Hf].
    now apply (sane_accept os os_sane w ls c a Ha) in Hf. }
  unfold accept_branch, accept_client, sock_accept, bind. rewrite Hl, Ha.
  unfold setblocking, emit.
  rewrite (register_live (created w) c) by (apply lookup_insert_eq || exact Hnone).
  unfold ret.
  match goal with
  | |- context [getpeername os (created w) ?W] =>
    destruct (getpeername_ok (created w) c W (lookup_insert_eq _ _ _))
      as [name ->]
  end.
  reflexivity.
Qed.

Lemma dispatch_ok ls k rest w :
  consistent w -> listening ls w -> batch_ok (k :: rest) w ->
  (dispatch os ls k w).1 = Ok tt.
Proof.
  intros Hw (nl & kl & Hl & _) [_ Hin].
  assert (Hmine : fd_to_key w !! fd k = Some k) by (apply Hin; left).
  unfold dispatch.
  destruct (String.eqb (data k) "client_connected").
  - exact (accept_branch_ok ls nl w Hw Hl).
  - destruct (String.eqb (data k) "data_received"); [|reflexivity].
    destruct (tidy_keys w (consistent_tidy w Hw) _ _ Hmine) as [_ Hs].
    exact (process_client_io_ok (fileobj k) (fd k) w Hs (ex_intro _ k Hmine)).
Qed.

Lemma for_events_ok ls evs : forall w,
  consistent w -> listening ls w -> batch_ok evs w ->
  (for_events os ls evs w).1 = Ok tt.
Proof.
  induction evs as [|k rest IH]; intros w Hw Hl Hb; [reflexivity|].
  cbn [for_events]. unfold bind.
  pose proof (dispatch_ok ls k rest w Hw Hl Hb) as Hok.
  destruct (dispatch_consistent os os_sane ls k rest w Hw Hl Hb)
    as (Hc & Hl' & Hb').
  destruct (dispatch os ls k w) as [[[]|e] w1]; cbn [fst snd] in *;
    [|discriminate].
  now apply IH.
Qed.

Lemma dispatch_loop_ok polls ls : forall w,
  consistent w -> listening ls w ->
  (dispatch_loop os polls ls w).1 = Ok tt.
Proof.
  induction polls as [|polls IH]; intros w Hw Hl; [reflexivity|].
  rewrite dispatch_loop_step.
  destruct (select_consistent os os_sane POLL_TIMEOUT w Hw)
    as (Hc & Ht & Hf & Hb).
  destruct (select_outcome os POLL_TIMEOUT w) as [[e He]|[evs He]].
  { exfalso. revert He. unfold select.
    destruct (obliging_epoll os os_obliging w) as [ready ->]. discriminate. }
  rewrite He in Hc, Ht, Hf, Hb |- *. cbn [fst snd] in *.
  set (w1 := record (Select POLL_TIMEOUT evs) w) in *.
  assert (Hl1 : listening ls w1).
  { destruct Hl as (n & k & H1 & H2 & H3). exists n, k. now rewrite Hf, Ht. }
  pose proof (for_events_ok ls evs w1 Hc Hl1 (Hb evs eq_refl)) as Hok.
  destruct (for_events_consistent os os_sane ls evs w1 Hc Hl1 (Hb evs eq_refl))
    as [Hc2 Hl2].
  destruct (for_events os ls evs w1) as [[[]|e] w2]; cbn [fst snd] in *;
    [|discriminate].
  now apply IH.
Qed.

End Progress.

(** X14: the server keeps running.  On a system that hands out unused
    descriptors, reports a ready descriptor once per poll, lets no call
    fail and delivers well-formed UTF-8 only, no exception ever leaves
    [main]: after any number of polls the loop is still running. *)
Theorem server_keeps_running os polls :
  sane os -> obliging os -> (main os polls start).1 = Ok tt.
Proof.
  intros Hsane Hobl.
  assert (H0 : consistent start).
  { split; [split; intros *; rewrite ?lookup_empty; discriminate|reflexivity|].
    intros n s. cbn. rewrite lookup_empty. discriminate. }
  destruct (server_socket_enter_consistent os Hsane HOST PORT start H0)
    as [Hc Hl].
  assert (He : exists ls, (server_socket_enter os HOST PORT start).1 = Ok ls).
  { unfold server_socket_enter, socket, bind.
    destruct (obliging_socket os Hobl start) as [n ->].
    unfold setsockopt, emit, bind_addr. cbv beta iota.
    rewrite (on_open_live (created start) _ _ _ n) by apply lookup_insert_eq.
    rewrite (obliging_bind os Hobl). unfold setblocking, emit.
    rewrite (register_live (created start) n)
      by (apply lookup_insert_eq || apply lookup_empty).
    now eexists. }
  destruct He as [ls He]. specialize (Hl ls He).
  unfold main, bind at 1.
  destruct (server_socket_enter os HOST PORT start) as [r w1].
  cbn [fst snd] in *. subst r.
  unfold with_server_socket, bind, logger.info, listen, emit.
  set (w2 := record (Listen ls) (record (Log INFO _) w1)).
  assert (Hc2 : consistent w2)
    by (do 2 (apply consistent_record; [|reflexivity|exact I]); exact Hc).
  pose proof (dispatch_loop_ok os Hsane Hobl polls ls w2 Hc2 Hl) as Hok.
  destruct (dispatch_loop os polls ls w2) as [[[]|e] w3]; cbn [fst] in *;
    [reflexivity|discriminate].
Qed.

Lemma server_keeps_running_witness :
  (main Scenario.chatty 3 start).1 = Ok tt.
Proof.
  apply (server_keeps_running Scenario.chatty 3); [apply system_sane|].
  split; intros; repeat eexists; reflexivity.
Defined.

(** * Faults, unknown tags and registration errors in runs of [main] *)

(** ** Unknown tags *)

(** C8: a ready entry whose tag is neither "client_connected" nor
    "data_received" costs one error message and nothing else, wherever it
    stands in its batch and whatever the state: [dispatch] returns
    normally, the [for] loop goes on with the entries after it, and the
    [while] loop with the next poll. *)
Theorem unknown_tag_is_logged os ls pre k rest polls w0 w w1 :
  data k <> "client_connected"%string ->
  data k <> "data_received"%string ->
  select os POLL_TIMEOUT w0 = (Ok (pre ++ k :: rest), w) ->
  for_events os ls pre w = (Ok tt, w1) ->
  let w' :=
    record (Log ERROR (Codec.lit "Unknown event: " ++ Codec.lit (data k))) w1 in
  (forall v,
      dispatch os ls k v
      = (Ok tt,
         record (Log ERROR (Codec.lit "Unknown event: " ++ Codec.lit (data k)))
           v))
  /\ for_events os ls (pre ++ k :: rest) w = for_events os ls rest w'
  /\ dispatch_loop os (S polls) ls w0
     = bind (for_events os ls rest) (fun _ => dispatch_loop os polls ls) w'.
Proof.
  intros H1 H2 Hsel Hpre w'.
  assert (Hd : forall v,
             dispatch os ls k v
             = (Ok tt,
                record (Log ERROR (Codec.lit "Unknown event: "
                                   ++ Codec.lit (data k))) v)).
  { intros v. unfold dispatch.
    destruct (String.eqb_spec (data k) "client_connected"); [contradiction|].
    destruct (String.eqb_spec (data k) "data_received"); [contradiction|].
    reflexivity. }
  assert (Hf : for_events os ls (pre ++ k :: rest) w = for_events os ls rest w').
  { rewrite for_events_app. unfold bind at 1. rewrite Hpre.
    cbn [for_events]. unfold bind at 1. now rewrite Hd. }
  split; [exact Hd|]. split; [exact Hf|].
  rewrite dispatch_loop_step, Hsel, Hf. unfold bind.
  now destruct (for_events os ls rest w') as [[[]|e] w2].
Qed.

Lemma unknown_tag_is_logged_witness :
  let os := Demo.polling [6%Z; 5%Z; 3%Z] Scenario.chatty in
  let w := record (Select POLL_TIMEOUT
                     [Demo.connection_key 2 6; Demo.odd_key;
                      Demo.listening_key]) Fault.mixed in
  let w1 := (for_events os 0%nat [Demo.connection_key 2 6] w).2 in
  let w' := record (Log ERROR (Codec.lit "Unknown event: bogus")) w1 in
  (forall v,
      dispatch os 0%nat Demo.odd_key v
      = (Ok tt, record (Log ERROR (Codec.lit "Unknown event: bogus")) v))
  /\ for_events os 0%nat
       [Demo.connection_key 2 6; Demo.odd_key; Demo.listening_key] w
     = for_events os 0%nat [Demo.listening_key] w'
  /\ dispatch_loop os 3 0%nat Fault.mixed
     = bind (for_events os 0%nat [Demo.listening_key])
         (fun _ => dispatch_loop os 2 0%nat) w'.
Proof.
  intros os w w1 w'.
  apply (unknown_tag_is_logged os 0%nat [Demo.connection_key 2 6] Demo.odd_key
           [Demo.listening_key] 2 Fault.mixed w w1);
    [discriminate|discriminate|reflexivity|vm_compute; reflexivity].
Defined.

(** ** Faults *)

Section FaultsInRuns.
Variable os : os_model.
Hypothesis os_sane : sane os.

Lemma dispatch_loop_add p q ls w :
  dispatch_loop os (p + q) ls w
  = match dispatch_loop os p ls w with
    | (Ok _, w1) => dispatch_loop os q ls w1
    | (Raise e, w1) => (Raise e, w1)
    end.
Proof.
  revert w. induction p as [|p IH]; intros w; [reflexivity|].
  cbn [Nat.add]. rewrite !dispatch_loop_step.
  destruct (select os POLL_TIMEOUT w) as [[evs|e] w1]; [|reflexivity].
  destruct (for_events os ls evs w1) as [[[]|e] w2]; [apply IH|reflexivity].
Qed.

(** Handling the first entries of a batch keeps the invariant, the
    listening socket, and the entries still in line. *)
Lemma for_events_prefix ls pre : forall suffix w w1,
  consistent w -> listening ls w -> batch_ok (pre ++ suffix) w ->
  for_events os ls pre w = (Ok tt, w1) ->
  consistent w1 /\ listening ls w1 /\ batch_ok suffix w1.
Proof.
  induction pre as [|k pre IH]; intros suffix w w1 Hw Hl Hb.
  { cbn in Hb. intros [= <-]. auto. }
  cbn [for_events app] in *. unfold bind.
  destruct (dispatch_consistent os os_sane ls k (pre ++ suffix) w Hw Hl Hb)
    as (Hc & Hl' & Hb').
  destruct (dispatch os ls k w) as [[[]|e] w2]; cbn [snd] in *; [|discriminate].
  now apply IH.
Qed.

(** The state in which a run of [main] has made [polls] rounds. *)
Lemma running_state ls wl polls w0 :
  server_socket_enter os HOST PORT start = (Ok ls, wl) ->
  dispatch_loop os polls ls
    (record (Listen ls)
       (record (Log INFO (Codec.lit "Server listening on " ++ dotted HOST
                          ++ Codec.lit ":" ++ dec PORT)) wl))
  = (Ok tt, w0) ->
  consistent w0 /\ listening ls w0.
Proof.
  intros He Hd.
  destruct (server_socket_enter_consistent os os_sane HOST PORT start
              start_consistent) as [Hc Hl].
  rewrite He in Hc, Hl. cbn [fst snd] in Hc, Hl. specialize (Hl ls eq_refl).
  set (w2 := record (Listen ls) (record (Log INFO _) wl)) in Hd.
  assert (Hc2 : consistent w2)
    by (do 2 (apply consistent_record; [|reflexivity|exact I]); exact Hc).
  destruct (dispatch_loop_listening os os_sane polls ls w2 Hc2 Hl) as [H1 H2].
  rewrite Hd in H1, H2. now split.
Qed.

(** C3, as the code has it: nothing in the server catches an exception.
    In a run of [main] that has made [polls0] rounds, a fault raised while
    the ready entry [k] is handled leaves the [for] loop and the [while]
    loop at once, in the state the faulting handler left, so that the
    entries after [k] are not handled; [main] ends by that very
    exception, after the [finally] block of [server_socket] has
    unregistered and closed the listening socket and nothing else.  A
    faulting echo cycle has closed and unregistered nothing. *)
Theorem fault_leaves_the_loop ls wl polls0 pre k rest polls w0 w w1 e w' :
  server_socket_enter os HOST PORT start = (Ok ls, wl) ->
  dispatch_loop os polls0 ls
    (record (Listen ls)
       (record (Log INFO (Codec.lit "Server listening on " ++ dotted HOST
                          ++ Codec.lit ":" ++ dec PORT)) wl))
  = (Ok tt, w0) ->
  select os POLL_TIMEOUT w0 = (Ok (pre ++ k :: rest), w) ->
  for_events os ls pre w = (Ok tt, w1) ->
  dispatch os ls k w1 = (Raise e, w') ->
  for_events os ls (pre ++ k :: rest) w = (Raise e, w')
  /\ dispatch_loop os (S polls) ls w0 = (Raise e, w')
  /\ (exists n w'',
        main os (polls0 + S polls) start = (Raise e, w'')
        /\ fileno w' !! ls = Some n
        /\ trace w'' = trace w' ++ [Unregister ls n; Close ls n]
        /\ fd_to_key w'' = delete n (fd_to_key w')
        /\ fileno w'' = delete ls (fileno w'))
  /\ (data k = "data_received"%string ->
      fd_to_key w' = fd_to_key w1 /\ fileno w' = fileno w1).
Proof.
  intros He Hd Hsel Hpre Hk.
  assert (Hf : for_events os ls (pre ++ k :: rest) w = (Raise e, w')).
  { rewrite for_events_app. unfold bind at 1. rewrite Hpre.
    cbn [for_events]. unfold bind. now rewrite Hk. }
  assert (Hl : dispatch_loop os (S polls) ls w0 = (Raise e, w'))
    by now rewrite dispatch_loop_step, Hsel, Hf.
  split; [exact Hf|]. split; [exact Hl|]. split.
  - destruct (running_state ls wl polls0 w0 He Hd) as [Hc0 Hl0].
    destruct (select_consistent os os_sane POLL_TIMEOUT w0 Hc0)
      as (Hc & Ht & Hfn & Hb).
    rewrite Hsel in Hc, Ht, Hfn, Hb. cbn [fst snd] in *.
    assert (Hlw : listening ls w).
    { destruct Hl0 as (n & kl & H1 & H2 & H3). exists n, kl.
      now rewrite Hfn, Ht. }
    destruct (for_events_prefix ls pre (k :: rest) w w1 Hc Hlw
                (Hb _ eq_refl) Hpre) as (Hc1 & Hl1 & Hb1).
    destruct (dispatch_consistent os os_sane ls k rest w1 Hc1 Hl1 Hb1)
      as (_ & Hl' & _).
    rewrite Hk in Hl'. cbn [snd] in Hl'.
    destruct Hl' as (n & kl & Hn & Hkl & _).
    exists n. eexists. split; [|split; [exact Hn|]].
    + unfold main, bind at 1. rewrite He.
      unfold with_server_socket, bind at 1 2, logger.info, listen, emit.
      rewrite dispatch_loop_add, Hd, Hl.
      unfold finally, raise, server_socket_exit, bind.
      rewrite (unregister_live ls n w' Hn (ex_intro _ kl Hkl)).
      rewrite (close_live ls n) by exact Hn. reflexivity.
    + cbn. now rewrite <- !app_assoc.
  - intros Htag. unfold dispatch in Hk. rewrite Htag in Hk. cbn in Hk.
    now apply process_client_io_raise in Hk.
Qed.

End FaultsInRuns.

Lemma polling_sane ready os : sane os -> NoDup ready -> sane (Demo.polling ready os).
Proof.
  intros [H1 H2 H3] Hnd. split; [exact H1|exact H2|].
  intros w r [= <-]. exact Hnd.
Qed.

Lemma fault_leaves_the_loop_witness :
  let os := Demo.polling [4%Z; 5%Z; 3%Z]
              (Demo.system Fault.reset_on_2 (fun _ => Ok Demo.peer)) in
  let e := OSError ECONNRESET in
  let wl := (server_socket_enter os HOST PORT start).2 in
  let w0 :=
    (dispatch_loop os 2 0%nat
       (record (Listen 0%nat)
          (record (Log INFO (Codec.lit "Server listening on " ++ dotted HOST
                             ++ Codec.lit ":" ++ dec PORT)) wl))).2 in
  let w := (select os POLL_TIMEOUT w0).2 in
  let w1 := (for_events os 0%nat [Demo.connection_key 1 4] w).2 in
  let w' := (dispatch os 0%nat (Demo.connection_key 2 5) w1).2 in
  for_events os 0%nat
    ([Demo.connection_key 1 4] ++ Demo.connection_key 2 5 :: [Demo.listening_key])
    w = (Raise e, w')
  /\ dispatch_loop os 4 0%nat w0 = (Raise e, w')
  /\ (exists n w'',
        main os (2 + 4) start = (Raise e, w'')
        /\ fileno w' !! 0%nat = Some n
        /\ trace w'' = trace w' ++ [Unregister 0%nat n; Close 0%nat n]
        /\ fd_to_key w'' = delete n (fd_to_key w')
        /\ fileno w'' = delete 0%nat (fileno w'))
  /\ (data (Demo.connection_key 2 5) = "data_received"%string ->
      fd_to_key w' = fd_to_key w1 /\ fileno w' = fileno w1).
Proof.
  intros os e wl w0 w w1 w'.
  assert (Hsane : sane os)
    by (apply polling_sane; [apply system_sane|compute_done]).
  apply (fault_leaves_the_loop os Hsane 0%nat wl 2 [Demo.connection_key 1 4]
           (Demo.connection_key 2 5) [Demo.listening_key] 3 w0 w w1 e w');
    vm_compute; reflexivity.
Defined.

(** ** A read of no bytes, with the peer gone *)

Lemma vanishing_sane : sane Fault.vanishing.
Proof.
  destruct (system_sane (fun _ => Ok []) (fun _ => Ok Demo.peer))
    as [H1 H2 H3].
  split; [exact H1|exact H2|exact H3].
Qed.


(** ** Registration errors *)

Section NoKeyError.
Variable os : os_model.
Hypothesis os_sane : sane os.
Hypothesis os_polite : polite os.

Local Ltac not_mine :=
  first
    [ eapply (polite_socket os os_polite); eassumption
    | eapply (polite_bind os os_polite); eassumption
    | eapply (polite_accept os os_polite); eassumption
    | eapply (polite_recv os os_polite); eassumption
    | eapply (polite_getpeername os os_polite); eassumption
    | eapply (polite_sendall os os_polite); eassumption
    | eapply (polite_epoll os os_polite); eassumption ].

Lemma process_client_io_no_key_error s n w why :
  fileno w !! s = Some n -> is_Some (fd_to_key w !! n) ->
  (process_client_io os s w).1 <> Raise (KeyError why).
Proof.
  intros Hs [k Hk]. crunch.
  all: intros E; simplify_eq; solve [congruence | not_mine].
Qed.

Lemma accept_branch_no_key_error ls n w why :
  consistent w -> fileno w !! ls = Some n ->
  (accept_branch os ls w).1 <> Raise (KeyError why).
Proof.
  intros Hw Hl.
  unfold accept_branch, accept_client, sock_accept, bind. rewrite Hl.
  destruct (os_accept os w ls) as [[c a]|e] eqn:Ha.
  2:{ cbn. intros [= ->]. not_mine. }
  assert (Hnone : fd_to_key w !! c = None).
  { destruct (fd_to_key w !! c) as [k|] eqn:Hc; [|reflexivity].
    destruct (tidy_keys w (consistent_tidy w Hw) c k Hc) as [_ Hf].
    now apply (sane_accept os os_sane w ls c a Ha) in Hf. }
  unfold setblocking, emit.
  rewrite (register_live (created w) c) by (apply lookup_insert_eq || exact Hnone).
  unfold ret.
  rewrite (getpeername_live os (created w) _ c) by apply lookup_insert_eq.
  destruct (os_getpeername os _ (created w)) as [name|e] eqn:Hp; cbn.
  - discriminate.
  - intros [= ->]. not_mine.
Qed.

Lemma dispatch_no_key_error ls k rest w why :
  consistent w -> listening ls w -> batch_ok (k :: rest) w ->
  (dispatch os ls k w).1 <> Raise (KeyError why).
Proof.
  intros Hw (nl & kl & Hl & _) [_ Hin].
  assert (Hmine : fd_to_key w !! fd k = Some k) by (apply Hin; left).
  unfold dispatch.
  destruct (String.eqb (data k) "client_connected").
  - exact (accept_branch_no_key_error ls nl w why Hw Hl).
  - destruct (String.eqb (data k) "data_received"); [|discriminate].
    destruct (tidy_keys w (consistent_tidy w Hw) _ _ Hmine) as [_ Hs].
    exact (process_client_io_no_key_error (fileobj k) (fd k) w why Hs
             (ex_intro _ k Hmine)).
Qed.

Lemma for_events_no_key_error ls evs why : forall w,
  consistent w -> listening ls w -> batch_ok evs w ->
  (for_events os ls evs w).1 <> Raise (KeyError why).
Proof.
  induction evs as [|k rest IH]; intros w Hw Hl Hb; [discriminate|].
  cbn [for_events]. unfold bind.
  pose proof (dispatch_no_key_error ls k rest w why Hw Hl Hb) as Hno.
  destruct (dispatch_consistent os os_sane ls k rest w Hw Hl Hb)
    as (Hc & Hl' & Hb').
  destruct (dispatch os ls k w) as [[[]|e] w1]; cbn [fst snd] in *;
    [|exact Hno].
  now apply IH.
Qed.

Lemma dispatch_loop_no_key_error polls ls why : forall w,
  consistent w -> listening ls w ->
  (dispatch_loop os polls ls w).1 <> Raise (KeyError why).
Proof.
  induction polls as [|polls IH]; intros w Hw Hl; [discriminate|].
  rewrite dispatch_loop_step.
  destruct (select_consistent os os_sane POLL_TIMEOUT w Hw)
    as (Hc & Ht & Hf & Hb).
  destruct (select_outcome os POLL_TIMEOUT w) as [[e He]|[evs He]].
  { rewrite He. cbn. intros [= ->]. revert He. unfold select.
    destruct (os_epoll os w) as [ready|e] eqn:Hr; [discriminate|].
    intros [= ->]. not_mine. }
  rewrite He in Hc, Ht, Hf, Hb |- *. cbn [fst snd] in *.
  set (w1 := record (Select POLL_TIMEOUT evs) w) in *.
  assert (Hl1 : listening ls w1).
  { destruct Hl as (n & k & H1 & H2 & H3). exists n, k. now rewrite Hf, Ht. }
  pose proof (for_events_no_key_error ls evs why w1 Hc Hl1 (Hb evs eq_refl))
    as Hno.
  destruct (for_events_consistent os os_sane ls evs w1 Hc Hl1 (Hb evs eq_refl))
    as [Hc2 Hl2].
  destruct (for_events os ls evs w1) as [[[]|e] w2]; cbn [fst snd] in *;
    [|exact Hno].
  now apply IH.
Qed.

Lemma server_socket_enter_no_key_error why :
  (server_socket_enter os HOST PORT start).1 <> Raise (KeyError why).
Proof.
  unfold server_socket_enter, socket, bind.
  destruct (os_socket os start) as [n|e] eqn:Hn.
  2:{ cbn. intros [= ->]. not_mine. }
  unfold setsockopt, emit, bind_addr. cbv beta iota.
  rewrite (on_open_live (created start) _ _ _ n) by apply lookup_insert_eq.
  destruct (os_bind os _ (created start)) as [[]|e] eqn:Hb.
  2:{ cbn. intros [= ->]. not_mine. }
  unfold setblocking, emit.
  rewrite (register_live (created start) n)
    by (apply lookup_insert_eq || apply lookup_empty).
  discriminate.
Qed.

Lemma main_no_key_error polls why :
  (main os polls start).1 <> Raise (KeyError why).
Proof.
  destruct (server_socket_enter_consistent os os_sane HOST PORT start
              start_consistent) as [Hc Hl].
  pose proof (server_socket_enter_no_key_error why) as He.
  unfold main, bind at 1.
  destruct (server_socket_enter os HOST PORT start) as [[ls|e] w1];
    cbn [fst snd] in *; [|intros [= ->]; now apply He].
  specialize (Hl ls eq_refl).
  unfold with_server_socket, bind, logger.info, listen, emit.
  set (w2 := record (Listen ls) (record (Log INFO _) w1)).
  assert (Hc2 : consistent w2)
    by (do 2 (apply consistent_record; [|reflexivity|exact I]); exact Hc).
  pose proof (dispatch_loop_no_key_error polls ls why w2 Hc2 Hl) as Hno.
  destruct (dispatch_loop_listening os os_sane polls ls w2 Hc2 Hl)
    as [_ (n & kl & Hn & Hkl & _)].
  destruct (dispatch_loop os polls ls w2) as [[[]|e] w3]; cbn [fst snd] in *;
    [discriminate|].
  unfold finally, raise, server_socket_exit, bind.
  rewrite (unregister_live ls n w3 Hn (ex_intro _ kl Hkl)).
  rewrite (close_live ls n) by exact Hn. exact Hno.
Qed.

End NoKeyError.


